(** * sas2py.compare.macros: dataset comparison (compvars, complibs, compare)

    A shallow embedding of [src/sas2py/compare/macros.py] together with the
    small part of pandas and numpy that the three macros rely on, and the
    properties of the comparison engine that are stated about them.  The two
    functions of [src/sas2py/core/readers.py] that [complibs] calls are
    embedded with it, and so is the pagination of
    [src/sas2py/phuse/utils.py].

    Python floats and numpy [float64] cells are IEEE binary64 numbers; they
    are embedded as Rocq's primitive floats, which are the same numbers with
    the same rounding.  Python sets of column names are [gset string];
    iterating such a set is [elements], whose order, like Python's, is fixed
    but unrelated to insertion order. *)

From Stdlib Require Import ZArith Floats Ascii String.
From stdpp Require Import gmap strings list.

Set Warnings "-inexact-float,-clear-no-such-hyp".
Set Default Proof Using "Type".

(** ** The pandas and numpy fragment used by the macros *)

Module Pandas.

(** A scalar held in a column.  SAS datasets have numeric variables (read as
    [float64]) and character variables (read as [object] columns of [str]);
    the tests also build integer columns.  [VNone] is Python's [None], the
    missing marker of object columns; the missing marker of float columns is
    NaN.  Complex, boolean and datetime cells are outside the model. *)
Inductive cell : Type :=
  | VInt (n : Z)
  | VFloat (x : float)
  | VStr (s : string)
  | VNone.

(** A column: numpy's one-character dtype kind (['i'], ['f'], ['c'], ['O'],
    ...) and the values in row order. *)
Record Series : Type := mkSeries {
  dtype_kind : ascii;
  values : list cell
}.

(** A table: the length of its index and its named columns in order. *)
Record DataFrame : Type := mkFrame {
  index_len : nat;
  cols : list (string * Series)
}.

(** [df.columns] *)
Definition columns (df : DataFrame) : list string := (cols df).*1.

(** [df[col]]: the column of that name. *)
Fixpoint lookup_col (l : list (string * Series)) (col : string) : option Series :=
  match l with
  | [] => None
  | (name, s) :: rest => if String.eqb name col then Some s else lookup_col rest col
  end.

Definition get_col (df : DataFrame) (col : string) : option Series :=
  lookup_col (cols df) col.

(** What pandas guarantees of a frame: every column has one value per index
    entry, a float column holds floats, an integer column integers, and an
    object column strings or [None]. *)
Definition cell_has_kind (k : ascii) (v : cell) : bool :=
  match v with
  | VInt _ => Ascii.eqb k "i"
  | VFloat _ => Ascii.eqb k "f"
  | VStr _ | VNone => Ascii.eqb k "O"
  end.

Definition wf_series (n : nat) (s : Series) : bool :=
  Nat.eqb (length (values s)) n && forallb (cell_has_kind (dtype_kind s)) (values s).

Definition wf_frame (df : DataFrame) : bool :=
  forallb (λ c, wf_series (index_len df) c.2) (cols df).

(** [pd.isna] on a scalar. *)
Definition isna (v : cell) : bool :=
  match v with
  | VFloat x => is_nan x
  | VNone => true
  | VInt _ | VStr _ => false
  end.

(** Python's [==] on two scalars.  Integers and strings compare exactly,
    floats by IEEE equality (so NaN equals nothing), an integer and a float
    by value, [None] only equals [None]. *)
Definition float_eq_Z (x : float) (n : Z) : bool :=
  match Prim2SF x with
  | S754_zero _ => (n =? 0)%Z
  | S754_finite s m e =>
      let v := if s then Z.neg m else Z.pos m in
      if (0 <=? e)%Z then (n =? v * 2 ^ e)%Z else (n * 2 ^ (- e) =? v)%Z
  | S754_infinity _ | S754_nan => false
  end.

Definition py_eqb (a b : cell) : bool :=
  match a, b with
  | VInt m, VInt n => (m =? n)%Z
  | VFloat x, VFloat y => (x =? y)%float
  | VInt n, VFloat x | VFloat x, VInt n => float_eq_Z x n
  | VStr s, VStr t => String.eqb s t
  | VNone, VNone => true
  | _, _ => false
  end.

(** Python's [!=]. *)
Definition py_neb (a b : cell) : bool := negb (py_eqb a b).

(** numpy's cast of an [int64] to [float64]: the nearest float, ties to
    even. *)
Definition Z_to_float (n : Z) : float :=
  SF2Prim (binary_normalize prec emax n 0 false).

(** [==] when an operand is a numpy scalar, as the elements of the array of
    an integer or float column are: an integer against a float is first cast
    to [float64], so that [2**53 + 1] equals [2.0**53]; every other pair is
    compared as Python compares it. *)
Definition np_eqb (a b : cell) : bool :=
  match a, b with
  | VInt n, VFloat x | VFloat x, VInt n => (Z_to_float n =? x)%float
  | _, _ => py_eqb a b
  end.

Definition np_neb (a b : cell) : bool := negb (np_eqb a b).

(** [np.isclose(a, b, rtol=rtol, atol=atol)] on two float scalars, with
    [equal_nan] left at its default [False]: numpy evaluates
    [less_equal(abs(x - y), atol + rtol * abs(y)) & isfinite(y) | (x == y)]. *)
Definition isclose (a b rtol atol : float) : bool :=
  ((abs (a - b) <=? atol + rtol * abs b)%float && is_finite b) || (a =? b)%float.

(** The same on cells.  Only a pair of floats is given a meaning: the macros
    call it on the values of two columns of floating kind. *)
Definition np_isclose (a b : cell) (rtol atol : float) : bool :=
  match a, b with
  | VFloat x, VFloat y => isclose x y rtol atol
  | _, _ => false
  end.

(** [comp_val - base_val] on two floats. *)
Definition float_delta (base_val comp_val : cell) : option float :=
  match base_val, comp_val with
  | VFloat x, VFloat y => Some (y - x)%float
  | _, _ => None
  end.

(** [series.iloc[:n]] *)
Definition iloc_upto (n : nat) (s : Series) : Series :=
  mkSeries (dtype_kind s) (take n (values s)).

(** The rows at the given positions, in that order. *)
Definition take_rows (idx : list nat) (s : Series) : Series :=
  mkSeries (dtype_kind s) (omap (λ i, values s !! i) idx).

Definition cell_at (df : DataFrame) (col : string) (i : nat) : cell :=
  default VNone (get_col df col ≫= λ s, values s !! i).

(** Row [i] of [df[by].values], as a tuple. *)
Definition key_of_row (df : DataFrame) (by_ : list string) (i : nat) : list cell :=
  (λ b, cell_at df b i) <$> by_.

(** The dtype numpy gives the array [df[by].values]: integer and float
    columns together make a [float64] array, in which the integers are cast.
    Columns of one kind keep their values, and with an object column the
    array is an object array that holds every cell as it is. *)
Definition values_are_upcast (df : DataFrame) (by_ : list string) : bool :=
  forallb (λ b, match get_col df b with
                | Some s => Ascii.eqb (dtype_kind s) "i" || Ascii.eqb (dtype_kind s) "f"
                | None => false
                end) by_ &&
  existsb (λ b, match get_col df b with
                | Some s => Ascii.eqb (dtype_kind s) "f"
                | None => false
                end) by_.

Definition as_float64 (v : cell) : cell :=
  match v with
  | VInt n => VFloat (Z_to_float n)
  | _ => v
  end.

(** [df[by].values], one tuple per row. *)
Definition key_rows (df : DataFrame) (by_ : list string) : list (list cell) :=
  let cast := if values_are_upcast df by_ then as_float64 else id in
  (λ i, cast <$> key_of_row df by_ i) <$> seq 0 (index_len df).

(** The order [sort_values] uses inside one column: missing values last,
    otherwise the order of the values.  A column holds values of one type;
    between values of different types (which pandas refuses to sort) the
    order is by type, integers, then floats, then strings. *)
Definition type_rank (v : cell) : nat :=
  match v with VInt _ => 0 | VFloat _ => 1 | VStr _ => 2 | VNone => 3 end.

Definition cell_ltb (a b : cell) : bool :=
  if isna a then false
  else if isna b then true
  else match a, b with
       | VInt m, VInt n => (m <? n)%Z
       | VFloat x, VFloat y => (x <? y)%float
       | VStr s, VStr t => String.ltb s t
       | _, _ => type_rank a <? type_rank b
       end.

Fixpoint key_ltb (k1 k2 : list cell) : bool :=
  match k1, k2 with
  | a :: k1', b :: k2' => cell_ltb a b || (negb (cell_ltb b a) && key_ltb k1' k2')
  | _, _ => false
  end.

Fixpoint insert_row (x : nat * list cell) (l : list (nat * list cell))
    : list (nat * list cell) :=
  match l with
  | [] => [x]
  | y :: l' => if key_ltb y.2 x.2 then y :: insert_row x l' else x :: l
  end.

(** The positions of the rows in ascending key order.  pandas sorts with
    quicksort by default and promises no order among rows with equal keys;
    here they keep their order, which is one of the orders pandas may
    produce.  No statement below depends on that choice. *)
Definition argsort (keys : list (list cell)) : list nat :=
  (foldr insert_row [] (imap (λ i k, (i, k)) keys)).*1.

(** [df.sort_values(by).reset_index(drop=True)]: the rows are ordered by the
    values of the [by] columns, each column under its own dtype. *)
Definition sort_values (by_ : list string) (df : DataFrame) : DataFrame :=
  let idx := argsort (key_of_row df by_ <$> seq 0 (index_len df)) in
  mkFrame (index_len df) (prod_map id (take_rows idx) <$> cols df).

(** Equality of two key tuples as members of a Python set. *)
Definition key_eqb (k1 k2 : list cell) : bool :=
  (length k1 =? length k2) && forallb (λ p, py_eqb p.1 p.2) (zip k1 k2).

Definition key_in (k : list cell) (s : list (list cell)) : bool :=
  existsb (key_eqb k) s.

(** [set(map(tuple, rows))]: the distinct key tuples.  The tuples of a float
    key column are fresh numpy scalars, so a NaN key equals no other key. *)
Definition key_set (rows : list (list cell)) : list (list cell) :=
  foldl (λ s k, if key_in k s then s else s ++ [k]) [] rows.

(** [s1 - s2] and [s1 & s2] on such sets.  Of two equal tuples, one of each
    set, the intersection keeps one, and Python does not promise which; the
    tuple of [s1] is kept here. *)
Definition key_diff (s1 s2 : list (list cell)) : list (list cell) :=
  List.filter (λ k, negb (key_in k s2)) s1.

Definition key_inter (s1 s2 : list (list cell)) : list (list cell) :=
  List.filter (λ k, key_in k s2) s1.

(** One cell of the frame-against-key comparison [df[cols] == pd.Series(key)]:
    pandas answers [False] wherever the cell is missing, and compares the
    column's array with the key otherwise. *)
Definition mask_eqb (v k : cell) : bool := negb (isna v) && np_eqb v k.

(** [df.loc[(df[by] == pd.Series(key_dict)).all(axis=1)]]: the rows whose
    key columns all equal the key, in order. *)
Definition select_group (df : DataFrame) (by_ : list string) (key : list cell)
    : DataFrame :=
  let idx := List.filter
               (λ i, forallb (λ bk, mask_eqb (cell_at df bk.1 i) bk.2) (zip by_ key))
               (seq 0 (index_len df)) in
  mkFrame (length idx) (prod_map id (take_rows idx) <$> cols df).

End Pandas.

Import Pandas.

(** ** phuse/utils.py: the pages of a box plot *)

Module Phuse.

(** What [boxplot_block_ranges] can raise. *)
Inductive Raised : Type :=
  | KeyError (key : string)
  | TypeError
  | ZeroDivisionError.

(** [series.unique()]: the distinct values in order of first appearance;
    all missing values count as one value. *)
Definition same_value (a b : cell) : bool := (isna a && isna b) || py_eqb a b.

Definition unique (vals : list cell) : list cell :=
  foldl (λ seen v, if existsb (same_value v) seen then seen else seen ++ [v]) [] vals.

(** Whether Python's [<] is defined between two scalars: between two
    numbers and between two strings. *)
Definition orderable (a b : cell) : bool :=
  match a, b with
  | (VInt _ | VFloat _), (VInt _ | VFloat _) => true
  | VStr _, VStr _ => true
  | _, _ => false
  end.

(** Whether [sorted(vals)] returns: a list of less than two values is not
    compared at all, a longer one is sorted only if [<] is defined between its
    values, which are then all numbers or all strings. *)
Definition sortable (vals : list cell) : bool :=
  match vals with
  | [] => true
  | v :: rest => forallb (orderable v) rest
  end.

(** The loop [for i in range(n_pages)] of [boxplot_block_ranges], with
    Python's floor division. *)
Definition page_ranges (n_visits max_boxes_per_page : Z) : list (Z * Z) :=
  let n_pages := ((n_visits + max_boxes_per_page - 1) / max_boxes_per_page)%Z in
  (λ i : nat,
     let start_idx := (Z.of_nat i * max_boxes_per_page)%Z in
     let end_idx := Z.min ((Z.of_nat i + 1) * max_boxes_per_page - 1) (n_visits - 1) in
     (start_idx, end_idx)) <$> seq 0 (Z.to_nat n_pages).

(** [boxplot_block_ranges(df, visit_col, max_boxes_per_page)] *)
Definition boxplot_block_ranges (df : DataFrame) (visit_col : string)
    (max_boxes_per_page : Z) : Raised + list (Z * Z) :=
  match get_col df visit_col with
  | None => inl (KeyError visit_col)
  | Some s =>
      let visits := unique (values s) in
      if negb (sortable visits) then inl TypeError
      else
        let n_visits := Z.of_nat (length visits) in
        if (max_boxes_per_page =? 0)%Z then inl ZeroDivisionError
        else inr (page_ranges n_visits max_boxes_per_page)
  end.

End Phuse.

(** ** The macros *)

Module Macros.

Definition column_set (df : DataFrame) : gset string := list_to_set (columns df).

(** [compvars(ds1, ds2)]; the three log lines have no effect on the result. *)
Definition compvars (ds1 ds2 : DataFrame) : list string * list string * list string :=
  let vars1 := column_set ds1 in
  let vars2 := column_set ds2 in
  let vars_left := elements (vars1 ∖ vars2) in
  let vars_right := elements (vars2 ∖ vars1) in
  let vars_both := elements (vars1 ∩ vars2) in
  (vars_left, vars_right, vars_both).

(** The ['issue'] of a difference record. *)
Inductive Issue : Type :=
  | row_count_mismatch
  | missing_value_mismatch
  | value_mismatch.

(** A difference record: the dictionary appended to the list of differences.
    A key the dictionary does not have is [None] here. *)
Record Difference : Type := mkDifference {
  by_values : option (list cell);
  variable : option string;
  row : option nat;
  base_value : option cell;
  comp_value : option cell;
  issue : Issue;
  d_base_rows : option nat;      (* the record's 'base_rows' *)
  d_comp_rows : option nat;      (* the record's 'comp_rows' *)
  difference : option float
}.

(** The dictionary returned by [compare]. *)
Record Report : Type := mkReport {
  row_count_match : bool;
  base_rows : nat;
  comp_rows : nat;
  column_count_match : bool;
  base_columns : nat;
  comp_columns : nat;
  column_names_match : bool;
  differences : list Difference;
  by_group_count_match : option bool;
  base_only_groups : option nat;
  comp_only_groups : option nat;
  common_groups : option nat;
  match_ : bool;                 (* the report's 'match' *)
  difference_count : nat
}.

(** The defaults of [numeric_abs_tol] and [numeric_rel_tol]. *)
Definition default_numeric_abs_tol : float := 1.0e-9.
Definition default_numeric_rel_tol : float := 1.0e-6.

(** [kind in 'fc'] for a one-character dtype kind. *)
Definition in_fc (kind : ascii) : bool := Ascii.eqb kind "f" || Ascii.eqb kind "c".

(** The record of a cell pair.  [key] is the ['by_values'] of keyed mode and
    absent in positional mode. *)
Definition cell_record (key : option (list cell)) (col : string) (i : nat)
    (base_val comp_val : cell) (iss : Issue) (delta : option float) : Difference :=
  {| by_values := key; variable := Some col; row := Some i;
     base_value := Some base_val; comp_value := Some comp_val;
     issue := iss; d_base_rows := None; d_comp_rows := None;
     difference := delta |}.

(** The record of two unequal row counts.  Keyed mode names the key and the
    column; positional mode, which has one such record for the whole table,
    names neither. *)
Definition count_record (key : option (list cell)) (col : option string)
    (n_base n_comp : nat) : Difference :=
  {| by_values := key; variable := col; row := None;
     base_value := None; comp_value := None;
     issue := row_count_mismatch;
     d_base_rows := Some n_base; d_comp_rows := Some n_comp;
     difference := None |}.

(** The body of the loop over the cell pairs of two columns of floating
    kind: what one pair appends. *)
Definition close_step (key : option (list cell)) (col : string)
    (numeric_rel_tol numeric_abs_tol : float)
    (i : nat) (base_val comp_val : cell) : list Difference :=
  if isna base_val && isna comp_val then []
  else if isna base_val || isna comp_val then
    [cell_record key col i base_val comp_val missing_value_mismatch None]
  else if negb (np_isclose base_val comp_val numeric_rel_tol numeric_abs_tol) then
    [cell_record key col i base_val comp_val value_mismatch
       (float_delta base_val comp_val)]
  else [].

(** The body of the loop over the cell pairs of any other two columns, with
    Python's [!=]. *)
Definition exact_step (key : option (list cell)) (col : string)
    (i : nat) (base_val comp_val : cell) : list Difference :=
  if isna base_val && isna comp_val then []
  else if isna base_val || isna comp_val then
    [cell_record key col i base_val comp_val missing_value_mismatch None]
  else if py_neb base_val comp_val then
    [cell_record key col i base_val comp_val value_mismatch None]
  else [].

(** The [!=] of the second loop of keyed mode.  There the two sequences are
    the arrays [group[col].values], whose elements are numpy scalars unless
    the column is an object column; between two object columns the values
    are Python objects and [!=] is Python's. *)
Definition array_neb (base_kind comp_kind : ascii) (a b : cell) : bool :=
  if Ascii.eqb base_kind "O" && Ascii.eqb comp_kind "O" then py_neb a b
  else np_neb a b.

(** The body of that loop. *)
Definition array_step (key : option (list cell)) (col : string)
    (base_kind comp_kind : ascii)
    (i : nat) (base_val comp_val : cell) : list Difference :=
  if isna base_val && isna comp_val then []
  else if isna base_val || isna comp_val then
    [cell_record key col i base_val comp_val missing_value_mismatch None]
  else if array_neb base_kind comp_kind base_val comp_val then
    [cell_record key col i base_val comp_val value_mismatch None]
  else [].

(** The loop over two columns that are not both of floating kind.  Keyed
    mode enters it with the key of the group and two arrays; positional mode
    has no key and iterates two [Series], which yields Python scalars. *)
Definition value_step (key : option (list cell)) (col : string)
    (base_kind comp_kind : ascii)
    (i : nat) (base_val comp_val : cell) : list Difference :=
  match key with
  | Some _ => array_step key col base_kind comp_kind i base_val comp_val
  | None => exact_step key col i base_val comp_val
  end.

(** [for i, (base_val, comp_val) in enumerate(zip(base_vals, comp_vals))] *)
Definition scan (step : nat → cell → cell → list Difference)
    (base_vals comp_vals : list cell) : list Difference :=
  concat (imap (λ i p, step i p.1 p.2) (zip base_vals comp_vals)).

(** The dispatch on the two dtypes and the loop it selects. *)
Definition compare_values (key : option (list cell)) (col : string)
    (numeric_rel_tol numeric_abs_tol : float)
    (base_kind comp_kind : ascii) (base_vals comp_vals : list cell)
    : list Difference :=
  if in_fc base_kind && in_fc comp_kind then
    scan (close_step key col numeric_rel_tol numeric_abs_tol) base_vals comp_vals
  else
    scan (value_step key col base_kind comp_kind) base_vals comp_vals.

(** Keyed mode: what one column of one pair of groups appends. *)
Definition keyed_column (by_ : list string) (numeric_rel_tol numeric_abs_tol : float)
    (key : list cell) (base_group comp_group : DataFrame) (col : string)
    : list Difference :=
  if bool_decide (col ∈ by_) then []
  else
    match get_col base_group col, get_col comp_group col with
    | Some base_s, Some comp_s =>
        let base_vals := values base_s in
        let comp_vals := values comp_s in
        if negb (length base_vals =? length comp_vals) then
          [count_record (Some key) (Some col) (length base_vals) (length comp_vals)]
        else
          compare_values (Some key) col numeric_rel_tol numeric_abs_tol
            (dtype_kind base_s) (dtype_kind comp_s) base_vals comp_vals
    | _, _ => []
    end.

(** Keyed mode: what one common key appends. *)
Definition keyed_group (by_ : list string) (numeric_rel_tol numeric_abs_tol : float)
    (base_sorted comp_sorted : DataFrame) (key : list cell) : list Difference :=
  let base_group := select_group base_sorted by_ key in
  let comp_group := select_group comp_sorted by_ key in
  flat_map (keyed_column by_ numeric_rel_tol numeric_abs_tol key base_group comp_group)
    (elements (column_set base_group ∩ column_set comp_group)).

(** Keyed mode: the local list [differences] once the loop over the common
    keys has ended.  The keys are visited in the order of [key_inter];
    Python promises no order for the iteration of a set, so what is stated
    of this list is which records it holds and how often, not where. *)
Definition keyed_differences (by_ : list string) (numeric_rel_tol numeric_abs_tol : float)
    (base comp : DataFrame) : list Difference :=
  let base_sorted := sort_values by_ base in
  let comp_sorted := sort_values by_ comp in
  let base_keys := key_set (key_rows base_sorted by_) in
  let comp_keys := key_set (key_rows comp_sorted by_) in
  let common_keys := key_inter base_keys comp_keys in
  flat_map (keyed_group by_ numeric_rel_tol numeric_abs_tol base_sorted comp_sorted)
    common_keys.

(** Positional mode: what one common column appends to [result['differences']]. *)
Definition positional_column (numeric_rel_tol numeric_abs_tol : float)
    (base comp : DataFrame) (min_rows : nat) (col : string) : list Difference :=
  match get_col base col, get_col comp col with
  | Some base_s, Some comp_s =>
      let base_col := iloc_upto min_rows base_s in
      let comp_col := iloc_upto min_rows comp_s in
      compare_values None col numeric_rel_tol numeric_abs_tol
        (dtype_kind base_col) (dtype_kind comp_col) (values base_col) (values comp_col)
  | _, _ => []
  end.

(** Positional mode: [result['differences']] at the end of the [else] branch. *)
Definition positional_differences (numeric_rel_tol numeric_abs_tol : float)
    (base comp : DataFrame) : list Difference :=
  let unequal :=
    if negb (index_len base =? index_len comp) then
      [count_record None None (index_len base) (index_len comp)]
    else [] in
  let common_vars := elements (column_set base ∩ column_set comp) in
  let min_rows := index_len base `min` index_len comp in
  unequal ++
  flat_map (positional_column numeric_rel_tol numeric_abs_tol base comp min_rows)
    common_vars.

(** The test that selects keyed mode:
    [by and all(b in base.columns for b in by) and all(b in comp.columns for b in by)]. *)
Definition keyed_mode (by_ : option (list string)) (base comp : DataFrame) : bool :=
  match by_ with
  | None | Some [] => false
  | Some bs =>
      forallb (λ b, bool_decide (b ∈ columns base)) bs &&
      forallb (λ b, bool_decide (b ∈ columns comp)) bs
  end.

(** [compare(base, comp, by, numeric_abs_tol, numeric_rel_tol)].

    In keyed mode the source collects its records in a local list
    [differences] and stores the four group counts in [result]; the local
    list is assigned to nothing, so [result['differences']] is still the empty
    list it was created with when ['match'] and ['difference_count'] are
    computed from it. *)
Definition compare (base comp : DataFrame) (by_ : option (list string))
    (numeric_abs_tol numeric_rel_tol : float) : Report :=
  let result_differences : list Difference := [] in
  let '(result_differences, groups) :=
    if keyed_mode by_ base comp then
      let bs := default [] by_ in
      let base_sorted := sort_values bs base in
      let comp_sorted := sort_values bs comp in
      let base_keys := key_set (key_rows base_sorted bs) in
      let comp_keys := key_set (key_rows comp_sorted bs) in
      let base_only_keys := key_diff base_keys comp_keys in
      let comp_only_keys := key_diff comp_keys base_keys in
      let common_keys := key_inter base_keys comp_keys in
      let differences := keyed_differences bs numeric_rel_tol numeric_abs_tol base comp in
      (result_differences,
       Some (length base_keys =? length comp_keys, length base_only_keys,
             length comp_only_keys, length common_keys))
    else
      (result_differences ++
         positional_differences numeric_rel_tol numeric_abs_tol base comp,
       None) in
  {| row_count_match := index_len base =? index_len comp;
     base_rows := index_len base;
     comp_rows := index_len comp;
     column_count_match := length (columns base) =? length (columns comp);
     base_columns := length (columns base);
     comp_columns := length (columns comp);
     column_names_match := bool_decide (column_set base = column_set comp);
     differences := result_differences;
     by_group_count_match := (λ g, g.1.1.1) <$> groups;
     base_only_groups := (λ g, g.1.1.2) <$> groups;
     comp_only_groups := (λ g, g.1.2) <$> groups;
     common_groups := (λ g, g.2) <$> groups;
     match_ := length result_differences =? 0;
     difference_count := length result_differences |}.

(** *** [complibs] and what it reads *)

(** A raised exception: its class and its message. *)
Record PyError : Type := mkError { exc_type : string; exc_msg : string }.

Definition ValueError (msg : string) : PyError := mkError "ValueError" msg.
Definition FileNotFoundError (msg : string) : PyError := mkError "FileNotFoundError" msg.
Definition StopIteration : PyError := mkError "StopIteration" "".

(** The files [complibs] sees: [os.path.isdir], [os.listdir],
    [os.path.exists], and the two readers of [pyreadstat], of which only the
    table is kept.  [os.listdir] and the two readers are taken to return:
    the exceptions they can raise themselves (an unreadable directory, a
    damaged file) are outside the model, and every statement about
    [complibs] is about the runs in which they return. *)
Record FileSystem : Type := mkFileSystem {
  isdir : string → bool;
  listdir : string → list string;
  path_exists : string → bool;
  read_sas7bdat : string → DataFrame;
  read_xport : string → DataFrame
}.

(** [str.isascii] *)
Definition isascii (s : string) : bool :=
  forallb (λ c, nat_of_ascii c <? 128) (list_ascii_of_string s).

(** [str.lower] on a file name of ASCII characters; a string is a
    sequence of bytes here, and the bytes above 127 are left as they are,
    which is not what [str.lower] does to a non-ASCII letter. *)
Definition ascii_lower (c : ascii) : ascii :=
  let n := nat_of_ascii c in
  if (65 <=? n) && (n <=? 90) then ascii_of_nat (n + 32) else c.

Fixpoint lower (s : string) : string :=
  match s with
  | EmptyString => EmptyString
  | String c s' => String (ascii_lower c) (lower s')
  end.

(** [s.endswith(suffix)] *)
Definition endswith (s suffix : string) : bool :=
  (String.length suffix <=? String.length s) &&
  String.eqb (substring (String.length s - String.length suffix)
                (String.length suffix) s) suffix.

(** [p.rfind(c)] for a character: the last position of [c], or [-1]. *)
Fixpoint rfind_from (c : ascii) (p : string) (i last : Z) : Z :=
  match p with
  | EmptyString => last
  | String a p' => rfind_from c p' (i + 1)%Z (if Ascii.eqb a c then i else last)
  end.

Definition rfind (c : ascii) (p : string) : Z := rfind_from c p 0%Z (-1)%Z.

(** [os.path.splitext(p)[0]]: [p] without its extension; a name made of
    dots up to its last dot has no extension. *)
Definition splitext_root (p : string) : string :=
  let sepIndex := rfind "/" p in
  let dotIndex := rfind "." p in
  if (sepIndex <? dotIndex)%Z then
    let stem := substring (Z.to_nat (sepIndex + 1))
                  (Z.to_nat (dotIndex - (sepIndex + 1))) p in
    if existsb (λ ch, negb (Ascii.eqb ch ".")) (list_ascii_of_string stem)
    then substring 0 (Z.to_nat dotIndex) p
    else p
  else p.

(** [os.path.join(a, b)] *)
Definition path_join (a b : string) : string :=
  if String.prefix "/" b then b
  else if String.eqb a "" || endswith a "/" then a +:+ b
  else a +:+ "/" +:+ b.

(** [read_sas] of [core/readers.py], without the metadata. *)
Definition read_sas (fs : FileSystem) (file_path : string) : PyError + DataFrame :=
  if negb (path_exists fs file_path) then
    inl (FileNotFoundError ("SAS dataset file not found: " +:+ file_path))
  else if endswith (lower file_path) ".sas7bdat" then
    inr (read_sas7bdat fs file_path)
  else if endswith (lower file_path) ".xpt" then
    inr (read_xport fs file_path)
  else
    inl (ValueError ("Unsupported file format: " +:+ file_path +:+
                     ". Must be .sas7bdat or .xpt")).

(** The keys of [missing_map]: ["."] and [".A"] to [".Z"]. *)
Definition missing_map : list string :=
  "." :: ((λ c, String "." (String c EmptyString)) <$>
          list_ascii_of_string "ABCDEFGHIJKLMNOPQRSTUVWXYZ").

(** [handle_sas_missing]: every cell that is one of those strings becomes
    [None]. *)
Definition handle_sas_missing (df : DataFrame) : DataFrame :=
  let replace v :=
    match v with
    | VStr t => if existsb (String.eqb t) missing_map then VNone else v
    | _ => v
    end in
  mkFrame (index_len df)
    (prod_map id (λ s, mkSeries (dtype_kind s) (replace <$> values s)) <$> cols df).

(** [df[names]]: the named columns, in that order. *)
Definition select_columns (df : DataFrame) (names : list string) : DataFrame :=
  mkFrame (index_len df) (omap (λ n, (λ s, (n, s)) <$> get_col df n) names).

(** One entry of the dictionary [complibs] returns. *)
Record LibraryEntry : Type := mkLibraryEntry {
  lib_row_count_match : bool;    (* the entry's 'row_count_match' *)
  ds1_rows : nat;
  ds2_rows : nat;
  vars_left : list string;
  vars_right : list string;
  vars_both : list string;
  comparison : Report
}.

(** [next(f for f in files if os.path.splitext(f)[0].lower() == dataset)] *)
Definition dataset_file (files : list string) (dataset : string) : option string :=
  List.find (λ f, String.eqb (lower (splitext_root f)) dataset) files.

(** The body of the loop of [complibs] over the common datasets. *)
Definition complibs_dataset (fs : FileSystem) (lib1_path lib2_path : string)
    (sortvars : option (list string)) (lib1_files lib2_files : list string)
    (dataset : string) : PyError + LibraryEntry :=
  match dataset_file lib1_files dataset, dataset_file lib2_files dataset with
  | Some lib1_file, Some lib2_file =>
      match read_sas fs (path_join lib1_path lib1_file) with
      | inl e => inl e
      | inr ds1 =>
          match read_sas fs (path_join lib2_path lib2_file) with
          | inl e => inl e
          | inr ds2 =>
              let ds1 := handle_sas_missing ds1 in
              let ds2 := handle_sas_missing ds2 in
              let sort_vars :=
                List.filter (λ v, bool_decide (v ∈ columns ds1) &&
                                  bool_decide (v ∈ columns ds2))
                  (default [] sortvars) in
              let '(ds1, ds2) :=
                match sort_vars with
                | [] => (ds1, ds2)
                | _ :: _ => (sort_values sort_vars ds1, sort_values sort_vars ds2)
                end in
              let '(vars_left, vars_right, vars_both) := compvars ds1 ds2 in
              let row_count_match := index_len ds1 =? index_len ds2 in
              let comp_result :=
                compare
                  (match vars_both with [] => mkFrame 0 [] | _ => select_columns ds1 vars_both end)
                  (match vars_both with [] => mkFrame 0 [] | _ => select_columns ds2 vars_both end)
                  sortvars default_numeric_abs_tol default_numeric_rel_tol in
              inr {| lib_row_count_match := row_count_match;
                     ds1_rows := index_len ds1;
                     ds2_rows := index_len ds2;
                     vars_left := vars_left;
                     vars_right := vars_right;
                     vars_both := vars_both;
                     comparison := comp_result |}
          end
      end
  | _, _ => inl StopIteration
  end.

(** [complibs(lib1_path, lib2_path, sortvars)]: the raised exception or the
    returned dictionary. *)
Definition complibs (fs : FileSystem) (lib1_path lib2_path : string)
    (sortvars : option (list string)) : PyError + gmap string LibraryEntry :=
  if negb (isdir fs lib1_path) then
    inl (ValueError ("First library path is not a directory: " +:+ lib1_path))
  else if negb (isdir fs lib2_path) then
    inl (ValueError ("Second library path is not a directory: " +:+ lib2_path))
  else
    let lib1_files := List.filter (λ f, endswith (lower f) ".sas7bdat") (listdir fs lib1_path) in
    let lib2_files := List.filter (λ f, endswith (lower f) ".sas7bdat") (listdir fs lib2_path) in
    let lib1_names := (λ f, lower (splitext_root f)) <$> lib1_files in
    let lib2_names := (λ f, lower (splitext_root f)) <$> lib2_files in
    let common_datasets : gset string := list_to_set lib1_names ∩ list_to_set lib2_names in
    foldl (λ results dataset,
             match results with
             | inl e => inl e
             | inr m =>
                 match complibs_dataset fs lib1_path lib2_path sortvars
                         lib1_files lib2_files dataset with
                 | inl e => inl e
                 | inr entry => inr (<[dataset := entry]> m)
                 end
             end)
          (inr ∅) (elements common_datasets).

(** *** The specification's wording of four rules *)


(** Modelled from the spec: what section 4.3 asks of a pair of groups of
    unequal length, for one column: the record of the two lengths is among
    the records [out], and so is every record of the position by position
    comparison of the first [min] rows. *)
Definition spec_unequal_groups (out : list Difference) (key : list cell)
    (col : string) (rtol atol : float) (base_s comp_s : Series) : Prop :=
  let n_base := length (values base_s) in
  let n_comp := length (values comp_s) in
  count_record (Some key) (Some col) n_base n_comp ∈ out ∧
  ∀ d, d ∈ compare_values (Some key) col rtol atol
             (dtype_kind base_s) (dtype_kind comp_s)
             (take (n_base `min` n_comp) (values base_s))
             (take (n_base `min` n_comp) (values comp_s)) →
       d ∈ out.

(** Modelled from the spec: the failure section 4.5 asks of the library
    comparator when one of the two paths is not a directory. *)
Definition spec_complibs_failure (fs : FileSystem) (lib1_path lib2_path : string)
    (sortvars : option (list string)) : Prop :=
  isdir fs lib1_path = false ∨ isdir fs lib2_path = false →
  ∃ msg, complibs fs lib1_path lib2_path sortvars =
         inl (mkError "DirectoryNotFoundError" msg).

(** Modelled from the spec: what claim C10 says of two columns that are not
    both of floating kind: the records of a pair of present cells are there
    exactly when its two values are not exactly equal. *)
Definition spec_exact_comparison (records : list Difference) (a b : cell) : Prop :=
  records ≠ [] ↔ py_eqb a b = false.

(** *** Tables used as concrete inputs *)

(** [A = {id: [1,2,3], value: [10.0,20.0,30.0]}] and
    [B = {id: [1,2,3], value: [10.0,20.5,30.0]}]. *)
Definition scenario1_base : DataFrame :=
  mkFrame 3 [("id", mkSeries "i" [VInt 1; VInt 2; VInt 3]);
             ("value", mkSeries "f" [VFloat 10.0; VFloat 20.0; VFloat 30.0])].

Definition scenario1_comp : DataFrame :=
  mkFrame 3 [("id", mkSeries "i" [VInt 1; VInt 2; VInt 3]);
             ("value", mkSeries "f" [VFloat 10.0; VFloat 20.5; VFloat 30.0])].

(** A table with a repeated key, a NaN and a [None]. *)
Definition visits : DataFrame :=
  mkFrame 4 [("id", mkSeries "i" [VInt 2; VInt 1; VInt 2; VInt 3]);
             ("value", mkSeries "f" [VFloat 21.0; VFloat nan; VFloat 20.0; VFloat 30.0]);
             ("site", mkSeries "O" [VStr "a"; VNone; VStr "b"; VStr "c"])].

(** A base table in which key 2 has two rows. *)
Definition repeated_key_base : DataFrame :=
  mkFrame 4 [("id", mkSeries "i" [VInt 2; VInt 1; VInt 2; VInt 3]);
             ("value", mkSeries "f" [VFloat 21.0; VFloat 10.0; VFloat 20.0; VFloat 30.0])].


Definition one_int (n : Z) : DataFrame :=
  mkFrame 1 [("count", mkSeries "i" [VInt n])].

(** Two libraries that share the dataset [demo], and a path that is a file. *)
Definition demo_fs : FileSystem :=
  {| isdir := λ p, String.eqb p "/lib/a" || String.eqb p "/lib/b" || String.eqb p "/lib/empty";
     listdir := λ p,
       if String.eqb p "/lib/a" then ["demo.sas7bdat"; "notes.txt"]
       else if String.eqb p "/lib/b" then ["DEMO.SAS7BDAT"; "other.sas7bdat"]
       else [];
     path_exists := λ p, negb (String.eqb p "/lib/missing");
     read_sas7bdat := λ p,
       if String.eqb p "/lib/a/demo.sas7bdat" then scenario1_base else scenario1_comp;
     read_xport := λ _, mkFrame 0 [] |}.

(** A table read from SAS in which a character variable holds missing
    markers. *)
Definition sas_missing_demo : DataFrame :=
  mkFrame 3 [("usubjid", mkSeries "O" [VStr "01"; VStr "02"; VStr "."]);
             ("aval", mkSeries "f" [VFloat 1.5; VFloat nan; VFloat 2.0]);
             ("avalc", mkSeries "O" [VStr ".A"; VStr "x."; VStr ".a"])].

(** A one-row table whose column [count] is of floats. *)
Definition count_float (x : float) : DataFrame :=
  mkFrame 1 [("count", mkSeries "f" [VFloat x])].

(** Two tables with the key [1]: an integer count above [2**53] in one, the
    float next to it in the other. *)
Definition big_count_base : DataFrame :=
  mkFrame 1 [("id", mkSeries "i" [VInt 1]);
             ("count", mkSeries "i" [VInt 9007199254740993])].

Definition big_count_comp : DataFrame :=
  mkFrame 1 [("id", mkSeries "i" [VInt 1]);
             ("count", mkSeries "f" [VFloat 9007199254740992])].

(** *** Properties of [compvars] *)

Lemma elem_of_column_set df x : x ∈ column_set df ↔ x ∈ columns df.
Proof. unfold column_set. by rewrite elem_of_list_to_set. Qed.

(** C8. The three lists returned by [compvars] (only in the first table, only
    in the second, in both) have no repeated name, are pairwise disjoint, and
    together hold exactly the names that are a column of either table; and
    [compvars A A] returns two empty lists and a list holding exactly the
    columns of [A]. *)
Theorem compvars_partition (ds1 ds2 : DataFrame) :
  (let '(vars_left, vars_right, vars_both) := compvars ds1 ds2 in
   NoDup vars_left ∧ NoDup vars_right ∧ NoDup vars_both ∧
   vars_left ## vars_both ∧ vars_left ## vars_right ∧ vars_both ## vars_right ∧
   ∀ x, x ∈ vars_left ++ vars_both ++ vars_right ↔ x ∈ columns ds1 ∨ x ∈ columns ds2) ∧
  (let '(vars_left, vars_right, vars_both) := compvars ds1 ds1 in
   vars_left = [] ∧ vars_right = [] ∧
   NoDup vars_both ∧ list_to_set vars_both = column_set ds1 ∧
   ∀ x, x ∈ vars_both ↔ x ∈ columns ds1).
Proof.
  unfold compvars. split.
  - repeat split; try apply NoDup_elements.
    + intros x; rewrite !elem_of_elements, elem_of_difference, elem_of_intersection; tauto.
    + intros x; rewrite !elem_of_elements, !elem_of_difference; tauto.
    + intros x; rewrite !elem_of_elements, elem_of_difference, elem_of_intersection; tauto.
    + rewrite !elem_of_app, !elem_of_elements, <- !elem_of_column_set. set_solver.
    + rewrite !elem_of_app, !elem_of_elements, <- !elem_of_column_set.
      destruct (decide (x ∈ column_set ds1)), (decide (x ∈ column_set ds2)); set_solver.
  - replace (column_set ds1 ∖ column_set ds1) with (∅ : gset string) by set_solver.
    replace (column_set ds1 ∩ column_set ds1) with (column_set ds1) by set_solver.
    rewrite elements_empty. repeat split; try apply NoDup_elements.
    + apply list_to_set_elements_L.
    + rewrite elem_of_elements. apply elem_of_column_set.
    + rewrite elem_of_elements. apply elem_of_column_set.
Qed.

(** *** The loop over cell pairs *)

Lemma elem_of_flat_map {A B} (f : A → list B) (l : list A) (y : B) :
  y ∈ flat_map f l ↔ ∃ x, x ∈ l ∧ y ∈ f x.
Proof.
  rewrite list_elem_of_In, in_flat_map.
  split; intros (x & H1 & H2); exists x; split;
    first [by apply list_elem_of_In | by apply list_elem_of_In].
Qed.

Lemma elem_of_scan step base_vals comp_vals d :
  d ∈ scan step base_vals comp_vals ↔
  ∃ i a b, base_vals !! i = Some a ∧ comp_vals !! i = Some b ∧ d ∈ step i a b.
Proof.
  unfold scan. rewrite list_elem_of_In, in_concat. split.
  - intros (l & Hl & Hd).
    apply list_elem_of_In in Hl. apply list_elem_of_In in Hd.
    apply elem_of_lookup_imap in Hl as (i & [a b] & -> & Hi).
    apply lookup_zip_with_Some in Hi as (a' & b' & [= -> ->] & Ha & Hb).
    by exists i, a', b'.
  - intros (i & a & b & Ha & Hb & Hd). exists (step i a b).
    split; [apply list_elem_of_In|by apply list_elem_of_In].
    apply elem_of_lookup_imap. exists i, (a, b). split; [done|].
    apply lookup_zip_with_Some. by exists a, b.
Qed.

Lemma scan_nil step base_vals comp_vals :
  (∀ i a b, base_vals !! i = Some a → comp_vals !! i = Some b → step i a b = []) →
  scan step base_vals comp_vals = [].
Proof.
  intros H. destruct (scan step base_vals comp_vals) as [|d l] eqn:E; [done|].
  assert (Hd : d ∈ scan step base_vals comp_vals) by (rewrite E; left).
  apply elem_of_scan in Hd as (i & a & b & Ha & Hb & Hd).
  rewrite (H i a b Ha Hb) in Hd. by apply elem_of_nil in Hd.
Qed.

(** Every record of a cell pair names the column, the row and the key it was
    made for. *)
Lemma close_step_fields key col rtol atol i a b d :
  d ∈ close_step key col rtol atol i a b →
  by_values d = key ∧ variable d = Some col ∧ row d = Some i ∧
  base_value d = Some a ∧ comp_value d = Some b.
Proof.
  unfold close_step. repeat case_match; intros Hin;
    try (by apply elem_of_nil in Hin); by apply list_elem_of_singleton in Hin as ->.
Qed.

Lemma exact_step_fields key col i a b d :
  d ∈ exact_step key col i a b →
  by_values d = key ∧ variable d = Some col ∧ row d = Some i ∧
  base_value d = Some a ∧ comp_value d = Some b.
Proof.
  unfold exact_step. repeat case_match; intros Hin;
    try (by apply elem_of_nil in Hin); by apply list_elem_of_singleton in Hin as ->.
Qed.

Lemma value_step_fields key col bk ck i a b d :
  d ∈ value_step key col bk ck i a b →
  by_values d = key ∧ variable d = Some col ∧ row d = Some i ∧
  base_value d = Some a ∧ comp_value d = Some b.
Proof.
  destruct key as [k|]; [|apply exact_step_fields].
  unfold value_step, array_step. repeat case_match; intros Hin;
    try (by apply elem_of_nil in Hin); by apply list_elem_of_singleton in Hin as ->.
Qed.

(** *** A value against itself *)

Lemma lookup_col_elem l col s : lookup_col l col = Some s → ∃ name, (name, s) ∈ l.
Proof.
  induction l as [|[name s'] l IH]; simpl; [done|].
  destruct (String.eqb name col).
  - intros [= ->]. exists name. left.
  - intros (n & Hn)%IH. exists n. by right.
Qed.

Lemma wf_frame_get_col df col s :
  wf_frame df = true → get_col df col = Some s →
  ∀ v, v ∈ values s → cell_has_kind (dtype_kind s) v = true.
Proof.
  unfold wf_frame, get_col. rewrite forallb_forall.
  intros Hwf (name & Hin%list_elem_of_In)%lookup_col_elem v Hv%list_elem_of_In.
  specialize (Hwf _ Hin). apply andb_true_iff in Hwf as [_ Hcells].
  rewrite forallb_forall in Hcells. by apply Hcells.
Qed.

Lemma py_eqb_refl v : isna v = false → py_eqb v v = true.
Proof.
  destruct v as [n|x|t|]; simpl; try done.
  - intros _. apply Z.eqb_refl.
  - unfold is_nan. by destruct (x =? x)%float.
  - intros _. apply String.eqb_refl.
Qed.

Lemma exact_step_self key col i v : exact_step key col i v v = [].
Proof.
  unfold exact_step, py_neb. destruct (isna v) eqn:Hna; simpl; [done|].
  by rewrite py_eqb_refl.
Qed.

Lemma np_eqb_refl v : isna v = false → np_eqb v v = true.
Proof. destruct v; try done; apply py_eqb_refl. Qed.

Lemma value_step_self key col bk ck i v : value_step key col bk ck i v v = [].
Proof.
  destruct key as [k|]; [|apply exact_step_self].
  unfold value_step, array_step, array_neb, np_neb, py_neb.
  destruct (isna v) eqn:Hna; simpl; [done|].
  rewrite py_eqb_refl, np_eqb_refl by done. by destruct (_ && _).
Qed.

Lemma close_step_self key col rtol atol i k v :
  in_fc k = true → cell_has_kind k v = true →
  close_step key col rtol atol i v v = [].
Proof.
  intros Hfc Hk. unfold close_step. destruct (isna v) eqn:Hna; simpl; [done|].
  destruct v as [n|x|t|]; simpl in *.
  - apply Ascii.eqb_eq in Hk as ->. done.
  - unfold isclose. unfold is_nan in Hna.
    destruct (x =? x)%float; [|done]. by rewrite orb_true_r.
  - apply Ascii.eqb_eq in Hk as ->. done.
  - done.
Qed.

Lemma compare_values_self key col rtol atol k vals :
  (∀ v, v ∈ vals → cell_has_kind k v = true) →
  compare_values key col rtol atol k k vals vals = [].
Proof.
  intros Hk. unfold compare_values. destruct (in_fc k) eqn:Hfc; simpl.
  - apply scan_nil. intros i a b Ha Hb. assert (a = b) as <- by congruence.
    apply (close_step_self _ _ _ _ _ k); [done|].
    apply Hk. by eapply list_elem_of_lookup_2.
  - apply scan_nil. intros i a b Ha Hb. assert (a = b) as <- by congruence.
    apply value_step_self.
Qed.

Lemma flat_map_nil {A B} (f : A → list B) (l : list A) :
  (∀ x, x ∈ l → f x = []) → flat_map f l = [].
Proof.
  induction l as [|x l IH]; simpl; [done|]. intros H.
  rewrite (H x) by left. rewrite IH; [done|]. intros y Hy. apply H. by right.
Qed.

Lemma positional_differences_self rtol atol df :
  wf_frame df = true → positional_differences rtol atol df df = [].
Proof.
  intros Hwf. unfold positional_differences. rewrite Nat.eqb_refl. simpl.
  apply flat_map_nil. intros col _. unfold positional_column.
  destruct (get_col df col) as [s|] eqn:Hs; [|done]. simpl.
  apply compare_values_self. intros v (j & Hj & _)%elem_of_take.
  eapply wf_frame_get_col; [done..|]. by eapply list_elem_of_lookup_2.
Qed.

(** C9. For a well-formed table [A], with or without missing values, and any
    [by] argument, [compare A A] reports a true [match], a zero
    [difference_count] and a true [row_count_match], in keyed mode as in
    positional mode. *)
Theorem compare_with_itself (A : DataFrame) (by_ : option (list string))
    (numeric_abs_tol numeric_rel_tol : float) :
  wf_frame A = true →
  let r := compare A A by_ numeric_abs_tol numeric_rel_tol in
  match_ r = true ∧ difference_count r = 0 ∧ row_count_match r = true.
Proof.
  intros Hwf. unfold compare. destruct (keyed_mode by_ A A); cbn [fst snd];
    cbv beta iota zeta; cbn [match_ difference_count row_count_match].
  - split_and!; [done..|apply Nat.eqb_refl].
  - rewrite positional_differences_self by done.
    split_and!; [done..|apply Nat.eqb_refl].
Qed.

Lemma compare_with_itself_witness :
  wf_frame visits = true ∧
  keyed_mode (Some ["id"]) visits visits = true ∧
  keyed_mode None visits visits = false ∧
  (let r := compare visits visits (Some ["id"])
              default_numeric_abs_tol default_numeric_rel_tol in
   match_ r = true ∧ difference_count r = 0 ∧ row_count_match r = true) ∧
  (let r := compare visits visits None
              default_numeric_abs_tol default_numeric_rel_tol in
   match_ r = true ∧ difference_count r = 0 ∧ row_count_match r = true).
Proof.
  split; [by vm_compute|]. split; [by vm_compute|]. split; [by vm_compute|].
  split.
  - apply (compare_with_itself visits (Some ["id"])). by vm_compute.
  - apply (compare_with_itself visits None). by vm_compute.
Defined.

(** *** One cell pair inside the loop *)

Lemma compare_values_at key col rtol atol bk ck base_vals comp_vals i a b d :
  base_vals !! i = Some a → comp_vals !! i = Some b →
  (d ∈ compare_values key col rtol atol bk ck base_vals comp_vals ∧ row d = Some i) ↔
  d ∈ (if in_fc bk && in_fc ck then close_step key col rtol atol i a b
       else value_step key col bk ck i a b).
Proof.
  intros Ha Hb. unfold compare_values.
  destruct (in_fc bk && in_fc ck); rewrite elem_of_scan; split.
  - intros [(j & a' & b' & Ha' & Hb' & Hd) Hrow].
    pose proof (close_step_fields _ _ _ _ _ _ _ _ Hd) as (_ & _ & Hr & _).
    assert (j = i) as -> by congruence. congruence.
  - intros Hd. split; [by exists i, a, b|].
    by apply close_step_fields in Hd as (_ & _ & Hr & _).
  - intros [(j & a' & b' & Ha' & Hb' & Hd) Hrow].
    pose proof (value_step_fields _ _ _ _ _ _ _ _ Hd) as (_ & _ & Hr & _).
    assert (j = i) as -> by congruence. congruence.
  - intros Hd. split; [by exists i, a, b|].
    by apply value_step_fields in Hd as (_ & _ & Hr & _).
Qed.

Lemma compare_values_variable key col rtol atol bk ck base_vals comp_vals d :
  d ∈ compare_values key col rtol atol bk ck base_vals comp_vals →
  variable d = Some col ∧ by_values d = key ∧ is_Some (row d).
Proof.
  unfold compare_values.
  destruct (in_fc bk && in_fc ck); intros (i & a & b & _ & _ & Hd)%elem_of_scan.
  - apply close_step_fields in Hd as (-> & -> & -> & _). eauto.
  - apply value_step_fields in Hd as (-> & -> & -> & _). eauto.
Qed.

Lemma step_both_missing key col rtol atol bk ck i a b :
  isna a = true → isna b = true →
  close_step key col rtol atol i a b = [] ∧ value_step key col bk ck i a b = [].
Proof.
  intros Ha Hb. unfold close_step, value_step, array_step, exact_step.
  rewrite Ha, Hb. by destruct key.
Qed.

Lemma step_one_missing key col rtol atol bk ck i a b :
  isna a ≠ isna b →
  close_step key col rtol atol i a b =
    [cell_record key col i a b missing_value_mismatch None] ∧
  value_step key col bk ck i a b =
    [cell_record key col i a b missing_value_mismatch None].
Proof.
  intros Hne. unfold close_step, value_step, array_step, exact_step.
  by destruct key, (isna a), (isna b).
Qed.

Lemma step_none_missing key col rtol atol bk ck i a b :
  isna a = false → isna b = false →
  close_step key col rtol atol i a b =
    (if negb (np_isclose a b rtol atol)
     then [cell_record key col i a b value_mismatch (float_delta a b)] else []) ∧
  value_step key col bk ck i a b =
    (if match key with Some _ => array_neb bk ck a b | None => py_neb a b end
     then [cell_record key col i a b value_mismatch None] else []).
Proof.
  intros Ha Hb. unfold close_step, value_step, array_step, exact_step.
  rewrite Ha, Hb. by destruct key.
Qed.

(** C5. In either loop, a pair of cells that are both missing adds no record
    for its row, and a pair with exactly one missing cell adds one record
    for its row, whose issue is [missing_value_mismatch] and never
    [value_mismatch]; neither the tolerance test nor the equality test is
    consulted. *)
Theorem missing_values_take_priority (key : option (list cell)) (col : string)
    (rtol atol : float) (bk ck : ascii) (base_vals comp_vals : list cell)
    (i : nat) (a b : cell) :
  base_vals !! i = Some a → comp_vals !! i = Some b →
  let out := compare_values key col rtol atol bk ck base_vals comp_vals in
  (isna a = true ∧ isna b = true → ∀ d, d ∈ out → row d ≠ Some i) ∧
  (isna a ≠ isna b →
   cell_record key col i a b missing_value_mismatch None ∈ out ∧
   ∀ d, d ∈ out → row d = Some i →
        d = cell_record key col i a b missing_value_mismatch None ∧
        issue d = missing_value_mismatch ∧ issue d ≠ value_mismatch).
Proof.
  intros Ha Hb out. split.
  - intros [Hna Hnb] d Hd Hrow.
    pose proof (proj1 (compare_values_at key col rtol atol bk ck _ _ i a b d Ha Hb)
                  (conj Hd Hrow)) as Hin.
    destruct (step_both_missing key col rtol atol bk ck i a b Hna Hnb) as [E1 E2].
    rewrite E1, E2 in Hin. destruct (in_fc bk && in_fc ck); by apply elem_of_nil in Hin.
  - intros Hne. destruct (step_one_missing key col rtol atol bk ck i a b Hne) as [E1 E2].
    split.
    + apply (compare_values_at key col rtol atol bk ck _ _ i a b); [done..|].
      rewrite E1, E2. destruct (in_fc bk && in_fc ck); left.
    + intros d Hd Hrow.
      pose proof (proj1 (compare_values_at key col rtol atol bk ck _ _ i a b d Ha Hb)
                    (conj Hd Hrow)) as Hin.
      rewrite E1, E2 in Hin.
      assert (d = cell_record key col i a b missing_value_mismatch None) as ->
        by (destruct (in_fc bk && in_fc ck); by apply list_elem_of_singleton in Hin).
      done.
Qed.

Lemma missing_values_take_priority_witness :
  let out := compare_values None "value" default_numeric_rel_tol default_numeric_abs_tol
               "f" "f" [VFloat nan; VFloat 1.0; VFloat nan]
                       [VFloat nan; VFloat nan; VFloat 2.0] in
  (∀ d, d ∈ out → row d ≠ Some 0) ∧
  cell_record None "value" 1 (VFloat 1.0) (VFloat nan) missing_value_mismatch None ∈ out ∧
  ∀ d, d ∈ out → row d = Some 1 → issue d ≠ value_mismatch.
Proof.
  pose proof (missing_values_take_priority None "value" default_numeric_rel_tol
                default_numeric_abs_tol "f" "f" [VFloat nan; VFloat 1.0; VFloat nan]
                [VFloat nan; VFloat nan; VFloat 2.0]) as H.
  split; [|split].
  - apply (H 0 (VFloat nan) (VFloat nan) eq_refl eq_refl). by vm_compute.
  - apply (H 1 (VFloat 1.0) (VFloat nan) eq_refl eq_refl). by vm_compute.
  - intros d Hd Hrow.
    apply (H 1 (VFloat 1.0) (VFloat nan) eq_refl eq_refl); [by vm_compute|done..].
Defined.

Lemma compare_values_flagged key col rtol atol bk ck base_vals comp_vals i a b :
  base_vals !! i = Some a → comp_vals !! i = Some b →
  isna a = false → isna b = false →
  (∃ d, d ∈ compare_values key col rtol atol bk ck base_vals comp_vals ∧ row d = Some i) ↔
  (if in_fc bk && in_fc ck then negb (np_isclose a b rtol atol)
   else match key with Some _ => array_neb bk ck a b | None => py_neb a b end) = true.
Proof.
  intros Ha Hb Hna Hnb.
  destruct (step_none_missing key col rtol atol bk ck i a b Hna Hnb) as [E1 E2].
  split.
  - intros (d & Hd).
    apply (compare_values_at key col rtol atol bk ck _ _ i a b d Ha Hb) in Hd.
    rewrite E1, E2 in Hd.
    destruct (in_fc bk && in_fc ck).
    + destruct (negb (np_isclose a b rtol atol)); [done|by apply elem_of_nil in Hd].
    + destruct (match key with Some _ => _ | None => _ end);
        [done|by apply elem_of_nil in Hd].
  - intros Hv.
    destruct (in_fc bk && in_fc ck) eqn:Hfc.
    + exists (cell_record key col i a b value_mismatch (float_delta a b)).
      apply (compare_values_at key col rtol atol bk ck _ _ i a b); [done..|].
      rewrite Hfc, E1, Hv. left.
    + exists (cell_record key col i a b value_mismatch None).
      apply (compare_values_at key col rtol atol bk ck _ _ i a b); [done..|].
      rewrite Hfc, E2, Hv. left.
Qed.

(** *** The numeric rule *)




(** *** Groups of unequal length *)

Lemma get_col_columns df col s : get_col df col = Some s → col ∈ columns df.
Proof.
  unfold get_col, columns. induction (cols df) as [|[name s'] l IH]; simpl; [done|].
  destruct (String.eqb name col) eqn:E.
  - intros _. apply String.eqb_eq in E as ->. left.
  - intros H. right. by apply IH.
Qed.

Lemma keyed_column_variable by_ rtol atol key base_group comp_group col d :
  d ∈ keyed_column by_ rtol atol key base_group comp_group col →
  variable d = Some col.
Proof.
  unfold keyed_column. repeat case_match; intros Hin;
    try (by apply elem_of_nil in Hin).
  - by apply list_elem_of_singleton in Hin as ->.
  - by apply compare_values_variable in Hin as [? _].
Qed.

(** C4, as worded, fails.  Key 2 has two rows in the base table and one in
    the comparison table, and the first values of the two groups, [21.0] and
    [20.5], differ; the list of the keyed loop holds the record of the two
    lengths and no record of that cell pair. *)
Lemma unequal_groups_are_not_compared_cell_by_cell :
  get_col (select_group (sort_values ["id"] repeated_key_base) ["id"] [VInt 2]) "value"
    = Some (mkSeries "f" [VFloat 21.0; VFloat 20.0]) ∧
  get_col (select_group (sort_values ["id"] scenario1_comp) ["id"] [VInt 2]) "value"
    = Some (mkSeries "f" [VFloat 20.5]) ∧
  ¬ spec_unequal_groups
      (keyed_differences ["id"] default_numeric_rel_tol default_numeric_abs_tol
         repeated_key_base scenario1_comp)
      [VInt 2] "value" default_numeric_rel_tol default_numeric_abs_tol
      (mkSeries "f" [VFloat 21.0; VFloat 20.0]) (mkSeries "f" [VFloat 20.5]).
Proof.
  split_and!; [by vm_compute..|].
  intros [_ H].
  specialize (H (cell_record (Some [VInt 2]) "value" 0 (VFloat 21.0) (VFloat 20.5)
                   value_mismatch (Some (20.5 - 21.0)%float))).
  assert (Hin : cell_record (Some [VInt 2]) "value" 0 (VFloat 21.0) (VFloat 20.5)
                  value_mismatch (Some (20.5 - 21.0)%float) ∈
                keyed_differences ["id"] default_numeric_rel_tol
                  default_numeric_abs_tol repeated_key_base scenario1_comp).
  { apply H. vm_compute. left. }
  vm_compute in Hin. apply list_elem_of_singleton in Hin. discriminate Hin.
Qed.

(** *** The two directories of [complibs] *)

(** C6, as worded, fails: for a second path that is not a directory the
    exception is a [ValueError], not a [DirectoryNotFoundError]. *)
Lemma complibs_raises_no_directory_not_found_error :
  isdir demo_fs "/lib/missing" = false ∧
  complibs demo_fs "/lib/a" "/lib/missing" None =
    inl (ValueError "Second library path is not a directory: /lib/missing") ∧
  ¬ spec_complibs_failure demo_fs "/lib/a" "/lib/missing" None.
Proof.
  split_and!; [by vm_compute..|].
  intros H. destruct H as [msg Hmsg]; [by right|].
  vm_compute in Hmsg. discriminate Hmsg.
Qed.

(** Two directories without a common dataset are no failure: the returned
    dictionary is empty. *)
Lemma complibs_without_common_dataset :
  complibs demo_fs "/lib/a" "/lib/empty" None = inr ∅.
Proof. by vm_compute. Qed.

(** C6, amended.  [complibs] raises a [ValueError] when one of its two paths
    is not a directory: about the first path when that one is not a
    directory, about the second otherwise. *)
Theorem complibs_rejects_a_non_directory (fs : FileSystem)
    (lib1_path lib2_path : string) (sortvars : option (list string)) :
  isdir fs lib1_path = false ∨ isdir fs lib2_path = false →
  ∃ msg, complibs fs lib1_path lib2_path sortvars = inl (ValueError msg) ∧
         exc_type (ValueError msg) = "ValueError" ∧
         msg = (if isdir fs lib1_path
                then "Second library path is not a directory: " +:+ lib2_path
                else "First library path is not a directory: " +:+ lib1_path).
Proof.
  intros H. unfold complibs. destruct (isdir fs lib1_path) eqn:H1; simpl.
  - destruct H as [H|H]; [done|]. rewrite H. simpl. eauto.
  - eauto.
Qed.

Lemma complibs_rejects_a_non_directory_witness :
  ∃ msg, complibs demo_fs "/lib/missing" "/lib/b" (Some ["id"]) = inl (ValueError msg) ∧
         exc_type (ValueError msg) = "ValueError" ∧
         msg = "First library path is not a directory: /lib/missing".
Proof.
  apply (complibs_rejects_a_non_directory demo_fs "/lib/missing" "/lib/b" (Some ["id"])).
  left. by vm_compute.
Defined.

(** *** Which mode runs *)

Lemma keyed_mode_true base comp bs :
  bs ≠ [] → (∀ b, b ∈ bs → b ∈ columns base ∧ b ∈ columns comp) →
  keyed_mode (Some bs) base comp = true.
Proof.
  intros Hne Hall. destruct bs as [|b0 bs']; [done|].
  unfold keyed_mode. apply andb_true_intro; split; apply forallb_forall;
    intros b Hb%list_elem_of_In; apply bool_decide_eq_true; by apply Hall.
Qed.

Lemma keyed_mode_false base comp bs :
  (∃ b, b ∈ bs ∧ (b ∉ columns base ∨ b ∉ columns comp)) →
  keyed_mode (Some bs) base comp = false.
Proof.
  intros (b & Hb & Hmiss). destruct bs as [|b0 bs']; [done|].
  unfold keyed_mode. apply not_true_is_false. intros [H1 H2]%andb_true_iff.
  rewrite forallb_forall in H1, H2. apply list_elem_of_In in Hb.
  specialize (H1 b Hb). specialize (H2 b Hb).
  apply bool_decide_eq_true in H1, H2. tauto.
Qed.

(** C2. With a non-empty [by] list whose columns all exist in both tables,
    the report has no differences, a zero [difference_count] and a true
    [match], whatever the cells of the two tables are: [compare] discards the
    list the keyed loop filled. *)
Theorem keyed_report_has_no_differences (base comp : DataFrame) (bs : list string)
    (numeric_abs_tol numeric_rel_tol : float) :
  bs ≠ [] →
  (∀ b, b ∈ bs → b ∈ columns base ∧ b ∈ columns comp) →
  let r := compare base comp (Some bs) numeric_abs_tol numeric_rel_tol in
  differences r = [] ∧ difference_count r = 0 ∧ match_ r = true.
Proof.
  intros Hne Hall. unfold compare. by rewrite keyed_mode_true.
Qed.

Lemma keyed_report_has_no_differences_witness :
  keyed_differences ["id"] default_numeric_rel_tol default_numeric_abs_tol
    scenario1_base scenario1_comp ≠ [] ∧
  let r := compare scenario1_base scenario1_comp (Some ["id"])
             default_numeric_abs_tol default_numeric_rel_tol in
  differences r = [] ∧ difference_count r = 0 ∧ match_ r = true.
Proof.
  split; [by vm_compute|].
  apply (keyed_report_has_no_differences scenario1_base scenario1_comp ["id"]).
  - done.
  - intros b ->%list_elem_of_singleton. split; vm_compute; set_solver.
Defined.

(** C1. On the tables of scenario 1 with [by=['id']] the keyed loop finds the
    one expected record (variable ['value'], issue [value_mismatch],
    difference [0.5]) in its local list, but the report that [compare]
    returns has no difference at all and a true [match]. *)
Theorem scenario1_keyed_report :
  keyed_differences ["id"] default_numeric_rel_tol default_numeric_abs_tol
    scenario1_base scenario1_comp =
    [ {| by_values := Some [VInt 2]; variable := Some "value"; row := Some 0;
         base_value := Some (VFloat 20.0); comp_value := Some (VFloat 20.5);
         issue := value_mismatch; d_base_rows := None; d_comp_rows := None;
         difference := Some 0.5%float |} ] ∧
  let r := compare scenario1_base scenario1_comp (Some ["id"])
             default_numeric_abs_tol default_numeric_rel_tol in
  differences r = [] ∧ difference_count r = 0 ∧ match_ r = true.
Proof. by vm_compute. Qed.

(** ** Further properties of [compare]

    As in the rest of the development, [df[col]] is one column: the column
    names of a table are distinct, as the variable names of a SAS dataset
    are. *)

(** *** The positional loop *)

Lemma step_issue key col rtol atol bk ck i a b d :
  d ∈ close_step key col rtol atol i a b ∨ d ∈ value_step key col bk ck i a b →
  issue d ≠ row_count_mismatch.
Proof.
  unfold close_step, value_step, array_step, exact_step.
  intros [Hin|Hin]; revert Hin; repeat case_match;
    intros Hin; try (by apply elem_of_nil in Hin);
    by apply list_elem_of_singleton in Hin as ->.
Qed.

Lemma compare_values_issue key col rtol atol bk ck base_vals comp_vals d :
  d ∈ compare_values key col rtol atol bk ck base_vals comp_vals →
  issue d ≠ row_count_mismatch.
Proof.
  unfold compare_values.
  destruct (in_fc bk && in_fc ck); intros (i & a & b & _ & _ & Hd)%elem_of_scan;
    apply (step_issue key col rtol atol bk ck i a b); auto.
Qed.

Lemma positional_report base comp by_ atol rtol :
  keyed_mode by_ base comp = false →
  differences (compare base comp by_ atol rtol) =
  positional_differences rtol atol base comp.
Proof. intros H. unfold compare. by rewrite H. Qed.

Lemma positional_column_elem rtol atol base comp n col d :
  d ∈ positional_column rtol atol base comp n col ↔
  ∃ base_s comp_s,
    get_col base col = Some base_s ∧ get_col comp col = Some comp_s ∧
    d ∈ compare_values None col rtol atol (dtype_kind base_s) (dtype_kind comp_s)
          (take n (values base_s)) (take n (values comp_s)).
Proof.
  unfold positional_column. split.
  - destruct (get_col base col) as [bs|]; [|by intros ?%elem_of_nil].
    destruct (get_col comp col) as [cs|]; [|by intros ?%elem_of_nil].
    intros Hd. by exists bs, cs.
  - intros (bs & cs & -> & -> & Hd). done.
Qed.

Lemma filter_none {A} (f : A → bool) (l : list A) :
  (∀ x, x ∈ l → f x = false) → List.filter f l = [].
Proof.
  induction l as [|x l IH]; simpl; [done|]. intros H.
  rewrite (H x) by left. apply IH. intros y Hy. apply H. by right.
Qed.

(** X1. In positional mode the report holds a record of issue
    [row_count_mismatch] exactly when the two tables differ in their number
    of rows; it is then the only such record, it carries the two row counts
    and names no variable, and it is the first record of the list. *)
Theorem positional_row_count_record (base comp : DataFrame)
    (by_ : option (list string)) (numeric_abs_tol numeric_rel_tol : float) :
  keyed_mode by_ base comp = false →
  let r := compare base comp by_ numeric_abs_tol numeric_rel_tol in
  List.filter (λ d, match issue d with row_count_mismatch => true | _ => false end)
    (differences r) =
    (if index_len base =? index_len comp then []
     else [count_record None None (index_len base) (index_len comp)]) ∧
  (index_len base ≠ index_len comp →
   head (differences r) =
     Some (count_record None None (index_len base) (index_len comp))).
Proof.
  intros Hmode r. unfold r. rewrite positional_report by done.
  unfold positional_differences. rewrite List.filter_app.
  rewrite (filter_none _ (flat_map _ _)).
  - destruct (index_len base =? index_len comp) eqn:E; simpl.
    + split; [done|]. intros Hne. by apply Nat.eqb_eq in E.
    + done.
  - intros d (col & _ & Hd)%elem_of_flat_map.
    apply positional_column_elem in Hd as (bs & cs & _ & _ & Hd).
    apply compare_values_issue in Hd. by destruct (issue d).
Qed.

Lemma positional_row_count_record_witness :
  let r := compare repeated_key_base scenario1_comp None
             default_numeric_abs_tol default_numeric_rel_tol in
  List.filter (λ d, match issue d with row_count_mismatch => true | _ => false end)
    (differences r) = [count_record None None 4 3] ∧
  (4 ≠ 3 → head (differences r) = Some (count_record None None 4 3)).
Proof.
  apply (positional_row_count_record repeated_key_base scenario1_comp None).
  reflexivity.
Defined.

(** X2. In positional mode every record of a cell pair is about a column
    that both tables have and a row below the smaller of the two row counts,
    carries no key, and reports the two cells the tables hold in that column
    at that row. *)
Theorem positional_record_reports_cells (base comp : DataFrame)
    (by_ : option (list string)) (numeric_abs_tol numeric_rel_tol : float)
    (d : Difference) (i : nat) :
  keyed_mode by_ base comp = false →
  d ∈ differences (compare base comp by_ numeric_abs_tol numeric_rel_tol) →
  row d = Some i →
  i < index_len base `min` index_len comp ∧ by_values d = None ∧
  ∃ col base_s comp_s a b,
    variable d = Some col ∧
    get_col base col = Some base_s ∧ get_col comp col = Some comp_s ∧
    values base_s !! i = Some a ∧ values comp_s !! i = Some b ∧
    base_value d = Some a ∧ comp_value d = Some b.
Proof.
  intros Hmode Hd Hrow. rewrite positional_report in Hd by done.
  unfold positional_differences in Hd. apply elem_of_app in Hd as [Hd|Hd].
  { destruct (negb _); [|by apply elem_of_nil in Hd].
    apply list_elem_of_singleton in Hd as ->. discriminate Hrow. }
  apply elem_of_flat_map in Hd as (col & _ & Hd).
  apply positional_column_elem in Hd as (bs & cs & Hbs & Hcs & Hd).
  unfold compare_values in Hd.
  assert (∃ j a b, take (index_len base `min` index_len comp) (values bs) !! j = Some a ∧
                   take (index_len base `min` index_len comp) (values cs) !! j = Some b ∧
                   by_values d = None ∧ variable d = Some col ∧ row d = Some j ∧
                   base_value d = Some a ∧ comp_value d = Some b)
    as (j & a & b & Ha & Hb & Hkey & Hvar & Hj & Hbv & Hcv).
  { destruct (in_fc (dtype_kind bs) && in_fc (dtype_kind cs));
      apply elem_of_scan in Hd as (j & a & b & Ha & Hb & Hd); exists j, a, b.
    - apply close_step_fields in Hd. naive_solver.
    - apply exact_step_fields in Hd. naive_solver. }
  assert (j = i) as -> by congruence.
  apply lookup_take_Some in Ha as [Ha Hlt]. apply lookup_take_Some in Hb as [Hb _].
  split_and!; [done..|]. by exists col, bs, cs, a, b.
Qed.

Lemma positional_record_reports_cells_witness :
  1 < 3 `min` 3 ∧
  by_values (cell_record None "value" 1 (VFloat 20.0) (VFloat 20.5) value_mismatch
               (Some 0.5%float)) = None ∧
  ∃ col base_s comp_s a b,
    variable (cell_record None "value" 1 (VFloat 20.0) (VFloat 20.5) value_mismatch
                (Some 0.5%float)) = Some col ∧
    get_col scenario1_base col = Some base_s ∧ get_col scenario1_comp col = Some comp_s ∧
    values base_s !! 1 = Some a ∧ values comp_s !! 1 = Some b ∧
    base_value (cell_record None "value" 1 (VFloat 20.0) (VFloat 20.5) value_mismatch
                  (Some 0.5%float)) = Some a ∧
    comp_value (cell_record None "value" 1 (VFloat 20.0) (VFloat 20.5) value_mismatch
                  (Some 0.5%float)) = Some b.
Proof.
  apply (positional_record_reports_cells scenario1_base scenario1_comp None
           default_numeric_abs_tol default_numeric_rel_tol).
  - reflexivity.
  - vm_compute. left.
  - reflexivity.
Defined.

Lemma step_nil_iff (fc : bool) key col rtol atol i a b :
  (if fc then close_step key col rtol atol i a b else exact_step key col i a b) = [] ↔
  (isna a && isna b) ||
  (negb (isna a || isna b) && if fc then np_isclose a b rtol atol else py_eqb a b) = true.
Proof.
  unfold close_step, exact_step, py_neb.
  destruct fc, (isna a), (isna b), (np_isclose a b rtol atol), (py_eqb a b); simpl;
    split; done.
Qed.

Lemma nil_iff_no_elem {A} (l : list A) : l = [] ↔ ∀ x, x ∉ l.
Proof.
  split; [intros -> x; apply not_elem_of_nil|apply elem_of_nil_inv].
Qed.

(** X3. In positional mode the report says [match] exactly when the two
    tables have the same number of rows and, in every column they share and
    at every row, the two cells are both missing, or neither is missing and
    they are close (two columns of floating kind) or equal (any other two
    columns).  Columns that only one table has play no part. *)
Theorem positional_match_iff (base comp : DataFrame)
    (by_ : option (list string)) (numeric_abs_tol numeric_rel_tol : float) :
  keyed_mode by_ base comp = false →
  match_ (compare base comp by_ numeric_abs_tol numeric_rel_tol) = true ↔
  index_len base = index_len comp ∧
  ∀ col base_s comp_s i a b,
    get_col base col = Some base_s → get_col comp col = Some comp_s →
    i < index_len base →
    values base_s !! i = Some a → values comp_s !! i = Some b →
    (isna a && isna b) ||
    (negb (isna a || isna b) &&
     if in_fc (dtype_kind base_s) && in_fc (dtype_kind comp_s)
     then np_isclose a b numeric_rel_tol numeric_abs_tol
     else py_eqb a b) = true.
Proof.
  intros Hmode.
  assert (match_ (compare base comp by_ numeric_abs_tol numeric_rel_tol) = true ↔
          positional_differences numeric_rel_tol numeric_abs_tol base comp = []) as ->.
  { rewrite <- positional_report with (by_ := by_) (atol := numeric_abs_tol) by done.
    unfold compare. destruct (keyed_mode by_ base comp); [done|].
    cbn [match_ differences]. rewrite Nat.eqb_eq. apply length_zero_iff_nil. }
  rewrite nil_iff_no_elem. unfold positional_differences. split.
  - intros Hno.
    assert (Hlen : index_len base = index_len comp).
    { destruct (index_len base =? index_len comp) eqn:E; [by apply Nat.eqb_eq|].
      exfalso. eapply Hno. apply elem_of_app. left. simpl. left. }
    split; [done|]. intros col bs cs i a b Hbs Hcs Hi Ha Hb.
    apply (step_nil_iff _ None col numeric_rel_tol numeric_abs_tol i).
    apply nil_iff_no_elem. intros d Hd. apply (Hno d).
    apply elem_of_app. right. apply elem_of_flat_map. exists col. split.
    { apply elem_of_elements, elem_of_intersection.
      split; apply elem_of_column_set; by eapply get_col_columns. }
    apply positional_column_elem. exists bs, cs. split_and!; [done..|].
    unfold compare_values.
    destruct (in_fc (dtype_kind bs) && in_fc (dtype_kind cs));
      apply elem_of_scan; exists i, a, b;
      (split_and!; [apply lookup_take_Some; split; [done|lia]..|done]).
  - intros [Hlen Hall] d Hd. apply elem_of_app in Hd as [Hd|Hd].
    { rewrite Hlen, Nat.eqb_refl in Hd. by apply elem_of_nil in Hd. }
    apply elem_of_flat_map in Hd as (col & _ & Hd).
    apply positional_column_elem in Hd as (bs & cs & Hbs & Hcs & Hd).
    unfold compare_values in Hd.
    assert (∃ i a b, take (index_len base `min` index_len comp) (values bs) !! i = Some a ∧
              take (index_len base `min` index_len comp) (values cs) !! i = Some b ∧
              d ∈ (if in_fc (dtype_kind bs) && in_fc (dtype_kind cs)
                   then close_step None col numeric_rel_tol numeric_abs_tol i a b
                   else exact_step None col i a b))
      as (i & a & b & Ha & Hb & Hin).
    { destruct (in_fc (dtype_kind bs) && in_fc (dtype_kind cs));
        apply elem_of_scan in Hd as (i & a & b & Ha & Hb & Hd); by exists i, a, b. }
    apply lookup_take_Some in Ha as [Ha Hlt]. apply lookup_take_Some in Hb as [Hb _].
    assert (Hi : i < index_len base) by lia.
    specialize (Hall col bs cs i a b Hbs Hcs Hi Ha Hb).
    apply (step_nil_iff _ None col numeric_rel_tol numeric_abs_tol i) in Hall.
    rewrite Hall in Hin. by apply elem_of_nil in Hin.
Qed.

Lemma positional_match_iff_witness :
  keyed_mode None scenario1_base scenario1_comp = false ∧
  (match_ (compare scenario1_base scenario1_comp None
             default_numeric_abs_tol default_numeric_rel_tol) = true ↔
   index_len scenario1_base = index_len scenario1_comp ∧
   ∀ col base_s comp_s i a b,
     get_col scenario1_base col = Some base_s → get_col scenario1_comp col = Some comp_s →
     i < index_len scenario1_base →
     values base_s !! i = Some a → values comp_s !! i = Some b →
     (isna a && isna b) ||
     (negb (isna a || isna b) &&
      if in_fc (dtype_kind base_s) && in_fc (dtype_kind comp_s)
      then np_isclose a b default_numeric_rel_tol default_numeric_abs_tol
      else py_eqb a b) = true).
Proof.
  split; [reflexivity|].
  apply (positional_match_iff scenario1_base scenario1_comp None). reflexivity.
Defined.

(** X4. Whatever the mode, the report says [column_names_match] exactly when
    [compvars] finds no variable that only one of the two tables has. *)
Theorem column_names_match_iff_compvars (base comp : DataFrame)
    (by_ : option (list string)) (numeric_abs_tol numeric_rel_tol : float) :
  column_names_match (compare base comp by_ numeric_abs_tol numeric_rel_tol) = true ↔
  (compvars base comp).1.1 = [] ∧ (compvars base comp).1.2 = [].
Proof.
  assert (column_names_match (compare base comp by_ numeric_abs_tol numeric_rel_tol) =
          bool_decide (column_set base = column_set comp)) as ->.
  { unfold compare. by destruct (keyed_mode by_ base comp). }
  rewrite bool_decide_eq_true. unfold compvars. cbn [fst snd].
  rewrite !elements_empty_iff. split.
  - intros ->. split; set_solver.
  - intros [H1 H2]. apply set_eq. intros x. split; intros Hx.
    + destruct (decide (x ∈ column_set comp)); [done|]. set_solver.
    + destruct (decide (x ∈ column_set base)); [done|]. set_solver.
Qed.

(** *** The keyed loop *)

Lemma key_set_length rows : length (key_set rows) ≤ length rows.
Proof.
  unfold key_set.
  assert (H : ∀ acc, length (foldl (λ s k, if key_in k s then s else s ++ [k]) acc rows)
                     ≤ length acc + length rows).
  { induction rows as [|k rows IH]; intros acc; simpl; [lia|].
    specialize (IH (if key_in k acc then acc else acc ++ [k])).
    destruct (key_in k acc); [lia|]. rewrite length_app in IH. simpl in IH. lia. }
  apply (H []).
Qed.

Lemma key_rows_length df by_ : length (key_rows (sort_values by_ df) by_) = index_len df.
Proof. unfold key_rows. by rewrite length_fmap, length_seq. Qed.

Lemma key_diff_inter_length s1 s2 :
  length (key_diff s1 s2) + length (key_inter s1 s2) = length s1.
Proof.
  unfold key_diff, key_inter. induction s1 as [|k s1 IH]; simpl; [done|].
  destruct (key_in k s2); simpl; lia.
Qed.

Lemma filter_length_le {A} (f : A → bool) (l : list A) :
  length (List.filter f l) ≤ length l.
Proof. induction l as [|x l IH]; simpl; [done|]. destruct (f x); simpl; lia. Qed.

Lemma columns_fmap n (f : Series → Series) (l : list (string * Series)) :
  columns (mkFrame n (prod_map id f <$> l)) = l.*1.
Proof.
  unfold columns. simpl. rewrite <- list_fmap_compose.
  apply list_fmap_ext. by intros _ [name s] _.
Qed.

Lemma columns_sort_values by_ df : columns (sort_values by_ df) = columns df.
Proof. unfold sort_values. by rewrite columns_fmap. Qed.

Lemma columns_select_group df by_ key : columns (select_group df by_ key) = columns df.
Proof. unfold select_group. by rewrite columns_fmap. Qed.

Lemma keyed_column_fields by_ rtol atol key base_group comp_group col d :
  d ∈ keyed_column by_ rtol atol key base_group comp_group col →
  (col ∉ by_) ∧ by_values d = Some key ∧ variable d = Some col.
Proof.
  unfold keyed_column. destruct (bool_decide (col ∈ by_)) eqn:Hby.
  { by intros ?%elem_of_nil. }
  apply bool_decide_eq_false in Hby. repeat case_match; intros Hin;
    try (by apply elem_of_nil in Hin).
  - by apply list_elem_of_singleton in Hin as ->.
  - by apply compare_values_variable in Hin as (? & ? & _).
Qed.

(** X6. Every record the keyed loop makes carries a key tuple that both
    tables have and names a variable that is a column of both tables and not
    one of the [by] columns: key columns are never compared. *)
Theorem keyed_records_scope (by_ : list string) (rtol atol : float)
    (base comp : DataFrame) (d : Difference) :
  d ∈ keyed_differences by_ rtol atol base comp →
  ∃ key col,
    by_values d = Some key ∧ variable d = Some col ∧
    key ∈ key_inter (key_set (key_rows (sort_values by_ base) by_))
                    (key_set (key_rows (sort_values by_ comp) by_)) ∧
    (col ∉ by_) ∧ col ∈ columns base ∧ col ∈ columns comp.
Proof.
  unfold keyed_differences. intros (key & Hkey & Hd)%elem_of_flat_map.
  unfold keyed_group in Hd. apply elem_of_flat_map in Hd as (col & Hcol & Hd).
  apply keyed_column_fields in Hd as (Hby & Hk & Hv).
  apply elem_of_elements, elem_of_intersection in Hcol as [H1 H2].
  apply elem_of_column_set in H1, H2.
  rewrite columns_select_group, columns_sort_values in H1, H2.
  by exists key, col.
Qed.

Lemma keyed_records_scope_witness :
  ∃ key col,
    by_values (cell_record (Some [VInt 2]) "value" 0 (VFloat 20.0) (VFloat 20.5)
                 value_mismatch (Some 0.5%float)) = Some key ∧
    variable (cell_record (Some [VInt 2]) "value" 0 (VFloat 20.0) (VFloat 20.5)
                value_mismatch (Some 0.5%float)) = Some col ∧
    key ∈ key_inter (key_set (key_rows (sort_values ["id"] scenario1_base) ["id"]))
                    (key_set (key_rows (sort_values ["id"] scenario1_comp) ["id"])) ∧
    (col ∉ ["id"]) ∧ col ∈ columns scenario1_base ∧ col ∈ columns scenario1_comp.
Proof.
  apply (keyed_records_scope ["id"] default_numeric_rel_tol default_numeric_abs_tol).
  vm_compute. left.
Defined.

Lemma lookup_col_fmap (f : Series → Series) (l : list (string * Series)) col :
  lookup_col (prod_map id f <$> l) col = f <$> lookup_col l col.
Proof.
  induction l as [|[name s] l IH]; simpl; [done|].
  by destruct (String.eqb name col).
Qed.

Lemma take_rows_kind idx s :
  (∀ v, v ∈ values s → cell_has_kind (dtype_kind s) v = true) →
  ∀ v, v ∈ values (take_rows idx s) →
       cell_has_kind (dtype_kind (take_rows idx s)) v = true.
Proof.
  intros H v. unfold take_rows. simpl.
  intros (i & _ & Hi)%list_elem_of_omap. apply H. by eapply list_elem_of_lookup_2.
Qed.

Lemma group_cells_have_kind df by_ key col s :
  wf_frame df = true →
  get_col (select_group (sort_values by_ df) by_ key) col = Some s →
  ∀ v, v ∈ values s → cell_has_kind (dtype_kind s) v = true.
Proof.
  intros Hwf. unfold get_col, select_group, sort_values. cbn [cols].
  rewrite !lookup_col_fmap.
  destruct (lookup_col (cols df) col) as [s0|] eqn:Hs0; [|done].
  intros [= <-]. apply take_rows_kind, take_rows_kind.
  by eapply wf_frame_get_col.
Qed.

(** X7. The keyed loop itself finds nothing between a well-formed table and
    itself, whatever the [by] list, the keys (repeated or missing) and the
    tolerances are. *)
Theorem keyed_loop_finds_nothing_in_itself (by_ : list string) (rtol atol : float)
    (A : DataFrame) :
  wf_frame A = true →
  keyed_differences by_ rtol atol A A = [].
Proof.
  intros Hwf. unfold keyed_differences. apply flat_map_nil. intros key _.
  unfold keyed_group. apply flat_map_nil. intros col _. unfold keyed_column.
  destruct (bool_decide (col ∈ by_)); [done|].
  destruct (get_col (select_group (sort_values by_ A) by_ key) col) as [s|] eqn:Hs;
    [|done].
  rewrite Nat.eqb_refl. simpl. apply compare_values_self.
  by eapply group_cells_have_kind.
Qed.

Lemma keyed_loop_finds_nothing_in_itself_witness :
  keyed_differences ["id"] default_numeric_rel_tol default_numeric_abs_tol visits visits
    = [].
Proof.
  apply (keyed_loop_finds_nothing_in_itself ["id"]). reflexivity.
Defined.

(** ** Further properties of [compvars] *)

(** X8. The lengths of the three lists of [compvars] add up: together they
    count the distinct column names of the two tables, the first and the
    third those of the first table, the second and the third those of the
    second table. *)
Theorem compvars_counts (ds1 ds2 : DataFrame) :
  let '(vars_left, vars_right, vars_both) := compvars ds1 ds2 in
  length vars_left + length vars_right + length vars_both =
    size (column_set ds1 ∪ column_set ds2) ∧
  length vars_left + length vars_both = size (column_set ds1) ∧
  length vars_right + length vars_both = size (column_set ds2).
Proof.
  unfold compvars. set (X := column_set ds1). set (Y := column_set ds2).
  change (size (X ∖ Y) + size (Y ∖ X) + size (X ∩ Y) = size (X ∪ Y) ∧
          size (X ∖ Y) + size (X ∩ Y) = size X ∧
          size (Y ∖ X) + size (X ∩ Y) = size Y).
  assert (HX : X = (X ∖ Y) ∪ (X ∩ Y)).
  { apply set_eq. intros x. destruct (decide (x ∈ Y)); set_solver. }
  assert (HY : Y = (Y ∖ X) ∪ (X ∩ Y)).
  { apply set_eq. intros x. destruct (decide (x ∈ X)); set_solver. }
  assert (HXY : X ∪ Y = (X ∖ Y) ∪ Y).
  { apply set_eq. intros x. destruct (decide (x ∈ Y)); set_solver. }
  assert (H1 : size X = size (X ∖ Y) + size (X ∩ Y)).
  { rewrite HX at 1. apply size_union. set_solver. }
  assert (H2 : size Y = size (Y ∖ X) + size (X ∩ Y)).
  { rewrite HY at 1. apply size_union. set_solver. }
  assert (H3 : size (X ∪ Y) = size (X ∖ Y) + size Y).
  { rewrite HXY. apply size_union. set_solver. }
  lia.
Qed.

(** X9. Exchanging the two tables exchanges the first two lists of
    [compvars] and leaves the third with the same names. *)
Theorem compvars_swap (ds1 ds2 : DataFrame) :
  let '(vars_left, vars_right, vars_both) := compvars ds1 ds2 in
  let '(vars_left', vars_right', vars_both') := compvars ds2 ds1 in
  vars_left' = vars_right ∧ vars_right' = vars_left ∧ vars_both' ≡ₚ vars_both.
Proof.
  unfold compvars. split_and!; [done..|].
  by replace (column_set ds2 ∩ column_set ds1) with (column_set ds1 ∩ column_set ds2)
    by set_solver.
Qed.

(** ** [handle_sas_missing] *)

Lemma missing_map_spec t : existsb (String.eqb t) missing_map = true ↔ t ∈ missing_map.
Proof.
  rewrite existsb_exists. split.
  - intros (u & Hu%list_elem_of_In & ->%String.eqb_eq). done.
  - intros Ht. exists t. split; [by apply list_elem_of_In|apply String.eqb_refl].
Qed.

Lemma handle_sas_missing_get_col df col s' :
  get_col (handle_sas_missing df) col = Some s' →
  ∃ s, get_col df col = Some s ∧ dtype_kind s' = dtype_kind s ∧
       values s' =
         (λ v, match v with
               | VStr t => if existsb (String.eqb t) missing_map then VNone else v
               | _ => v
               end) <$> values s.
Proof.
  unfold get_col, handle_sas_missing. cbn [cols]. rewrite lookup_col_fmap.
  destruct (lookup_col (cols df) col) as [s|]; [|done].
  intros [= <-]. by exists s.
Qed.

(** X10. [handle_sas_missing] keeps the columns, their dtype kinds and the
    number of rows; in its result no cell is one of the strings ["."],
    [".A"], ..., [".Z"]; a cell that is not one of them is left as it is; and
    applying it a second time changes nothing. *)
Theorem handle_sas_missing_result (df : DataFrame) :
  let r := handle_sas_missing df in
  columns r = columns df ∧ index_len r = index_len df ∧
  (∀ col s' t, get_col r col = Some s' → VStr t ∈ values s' → t ∉ missing_map) ∧
  (∀ col s', get_col r col = Some s' →
     ∃ s, get_col df col = Some s ∧ dtype_kind s' = dtype_kind s ∧
          length (values s') = length (values s) ∧
          ∀ i v, values s !! i = Some v →
                 (∀ t, v = VStr t → t ∉ missing_map) →
                 values s' !! i = Some v) ∧
  handle_sas_missing r = r.
Proof.
  intros r. split_and!.
  - unfold r, handle_sas_missing. by rewrite columns_fmap.
  - done.
  - intros col s' t (s & _ & _ & Hv)%handle_sas_missing_get_col Ht.
    rewrite Hv in Ht. apply list_elem_of_fmap in Ht as (v & Hv' & _).
    destruct v as [n|x|u|]; try done.
    destruct (existsb (String.eqb u) missing_map) eqn:E; [done|].
    injection Hv' as ->. intros Hin%missing_map_spec. congruence.
  - intros col s' (s & Hs & Hk & Hv)%handle_sas_missing_get_col.
    exists s. split_and!; [done..| |].
    + by rewrite Hv, length_fmap.
    + intros i v Hi Hnot. rewrite Hv, list_lookup_fmap, Hi.
      destruct v as [n|x|u|]; try done.
      assert (E : existsb (String.eqb u) missing_map = false).
      { apply not_true_is_false. intros E%missing_map_spec. by apply (Hnot u). }
      cbn [fmap option_fmap option_map]. by rewrite E.
  - unfold r, handle_sas_missing. cbn [index_len cols]. f_equal.
    rewrite <- list_fmap_compose. apply list_fmap_ext. intros _ [name s] _.
    unfold compose, prod_map. cbn [fst snd id dtype_kind values]. f_equal. f_equal.
    rewrite <- list_fmap_compose. apply list_fmap_ext.
    intros _ v _. unfold compose. destruct v as [n|x|u|]; try done.
    destruct (existsb (String.eqb u) missing_map) eqn:E; [done|]. by rewrite E.
Qed.

Lemma replaced_cell_kind k v :
  cell_has_kind k v = true →
  cell_has_kind k
    match v with
    | VStr t => if existsb (String.eqb t) missing_map then VNone else v
    | _ => v
    end = true.
Proof.
  destruct v as [n|x|u|]; intros H; try exact H.
  destruct (existsb (String.eqb u) missing_map); exact H.
Qed.

(** X11. [handle_sas_missing] keeps a table well formed: it turns strings of
    object columns into [None] and touches nothing else, so every column
    still has one value per row and values of its dtype. *)
Theorem handle_sas_missing_well_formed (df : DataFrame) :
  wf_frame df = true → wf_frame (handle_sas_missing df) = true.
Proof.
  unfold wf_frame, handle_sas_missing. cbn [index_len cols].
  rewrite !forallb_forall. intros Hwf [name s'] Hin%list_elem_of_In.
  apply list_elem_of_fmap in Hin as ([name0 s] & [= -> ->] & Hin%list_elem_of_In).
  specialize (Hwf _ Hin). unfold wf_series in *.
  cbn [fst snd prod_map id dtype_kind values] in *.
  apply andb_true_iff in Hwf as [Hlen Hcells]. apply andb_true_iff. split.
  - by rewrite length_fmap.
  - rewrite forallb_forall in Hcells. apply forallb_forall.
    intros v' Hv'%list_elem_of_In.
    apply list_elem_of_fmap in Hv' as (v & -> & Hv%list_elem_of_In).
    specialize (Hcells _ Hv). exact (replaced_cell_kind _ _ Hcells).
Qed.

Lemma handle_sas_missing_well_formed_witness :
  wf_frame (handle_sas_missing sas_missing_demo) = true ∧
  handle_sas_missing sas_missing_demo ≠ sas_missing_demo.
Proof.
  split.
  - apply (handle_sas_missing_well_formed sas_missing_demo). reflexivity.
  - by vm_compute.
Defined.

(** ** Further properties of [complibs] *)

(** *** Paths and extensions *)

Lemma length_append_string (x y : string) :
  String.length (x +:+ y) = String.length x + String.length y.
Proof. induction x as [|c x IH]; simpl; [done|]. by rewrite IH. Qed.

Lemma substring_append_skip (x y : string) n m :
  substring (String.length x + n) m (x +:+ y) = substring n m y.
Proof. induction x as [|c x IH]; simpl; [done|]. apply IH. Qed.

Lemma lower_append (x y : string) : lower (x +:+ y) = lower x +:+ lower y.
Proof. induction x as [|c x IH]; simpl; [done|]. by rewrite IH. Qed.

Lemma endswith_append (x y suffix : string) :
  endswith y suffix = true → endswith (x +:+ y) suffix = true.
Proof.
  unfold endswith. intros [Hlen Heq]%andb_true_iff.
  apply Nat.leb_le in Hlen. apply andb_true_iff. split.
  - apply Nat.leb_le. rewrite length_append_string. lia.
  - rewrite length_append_string.
    replace (String.length x + String.length y - String.length suffix)
      with (String.length x + (String.length y - String.length suffix)) by lia.
    by rewrite substring_append_skip.
Qed.

Lemma append_assoc_string (x y z : string) : (x +:+ y) +:+ z = x +:+ y +:+ z.
Proof.
  induction x as [|c x IH]; [done|].
  change (String c ((x +:+ y) +:+ z) = String c (x +:+ y +:+ z)). by f_equal.
Qed.

Lemma path_join_append (a b : string) : ∃ pre, path_join a b = pre +:+ b.
Proof.
  unfold path_join. destruct (String.prefix "/" b).
  - by exists ""%string.
  - destruct (String.eqb a "" || endswith a "/").
    + by exists a.
    + exists (a +:+ "/"). by rewrite append_assoc_string.
Qed.

Lemma path_join_keeps_extension (a b suffix : string) :
  endswith (lower b) suffix = true →
  endswith (lower (path_join a b)) suffix = true.
Proof.
  intros H. destruct (path_join_append a b) as [pre ->].
  rewrite lower_append. by apply endswith_append.
Qed.

(** *** The loop over the common datasets *)

Lemma dataset_file_Some files dataset f :
  dataset_file files dataset = Some f →
  f ∈ files ∧ lower (splitext_root f) = dataset.
Proof.
  unfold dataset_file. intros [Hin Heq]%find_some.
  split; [by apply list_elem_of_In|by apply String.eqb_eq].
Qed.

Lemma dataset_file_found files dataset :
  dataset ∈ (λ f, lower (splitext_root f)) <$> files →
  is_Some (dataset_file files dataset).
Proof.
  intros (f & -> & Hf)%list_elem_of_fmap. unfold dataset_file.
  destruct (find _ files) as [g|] eqn:E; [done|].
  pose proof (find_none _ _ E f (proj1 (list_elem_of_In _ _) Hf)) as Hnone.
  simpl in Hnone. by rewrite String.eqb_refl in Hnone.
Qed.

Lemma elem_of_sas_files (l : list string) f :
  f ∈ List.filter (λ f, endswith (lower f) ".sas7bdat") l ↔
  f ∈ l ∧ endswith (lower f) ".sas7bdat" = true.
Proof. by rewrite !list_elem_of_In, filter_In. Qed.

Section results_loop.
Context (body : string → PyError + LibraryEntry).

Let step (results : PyError + gmap string LibraryEntry) (dataset : string) :=
  match results with
  | inl e => inl e
  | inr m =>
      match body dataset with
      | inl e => inl e
      | inr entry => inr (<[dataset := entry]> m)
      end
  end.

Lemma results_loop_raised e l : foldl step (inl e) l = inl e.
Proof. induction l as [|d l IH]; simpl; [done|]. apply IH. Qed.

Lemma results_loop_returns l m0 m :
  foldl step (inr m0) l = inr m →
  (∀ d, is_Some (m !! d) ↔ is_Some (m0 !! d) ∨ d ∈ l) ∧
  (∀ d entry, m !! d = Some entry → m0 !! d = Some entry ∨ body d = inr entry).
Proof.
  revert m0. induction l as [|d0 l IH]; intros m0; simpl.
  - intros [= <-]. split.
    + intros d. rewrite elem_of_nil. tauto.
    + auto.
  - destruct (body d0) as [e|entry] eqn:Hbody.
    { by rewrite results_loop_raised. }
    intros [H1 H2]%IH. split.
    + intros d. rewrite H1, elem_of_cons, lookup_insert_is_Some.
      destruct (decide (d0 = d)) as [->|]; naive_solver.
    + intros d entry' [Hd|Hd]%H2; [|by right].
      apply lookup_insert_Some in Hd as [[<- <-]|[_ Hd]]; auto.
Qed.

End results_loop.

Lemma complibs_loop fs lib1_path lib2_path sortvars :
  isdir fs lib1_path = true → isdir fs lib2_path = true →
  complibs fs lib1_path lib2_path sortvars =
    foldl (λ results dataset,
             match results with
             | inl e => inl e
             | inr m =>
                 match complibs_dataset fs lib1_path lib2_path sortvars
                         (List.filter (λ f, endswith (lower f) ".sas7bdat")
                            (listdir fs lib1_path))
                         (List.filter (λ f, endswith (lower f) ".sas7bdat")
                            (listdir fs lib2_path)) dataset with
                 | inl e => inl e
                 | inr entry => inr (<[dataset := entry]> m)
                 end
             end)
      (inr ∅)
      (elements
         (list_to_set ((λ f, lower (splitext_root f)) <$>
                         List.filter (λ f, endswith (lower f) ".sas7bdat")
                           (listdir fs lib1_path)) ∩
          list_to_set ((λ f, lower (splitext_root f)) <$>
                         List.filter (λ f, endswith (lower f) ".sas7bdat")
                           (listdir fs lib2_path)) : gset string)).
Proof. intros H1 H2. unfold complibs. by rewrite H1, H2. Qed.

Lemma complibs_returns_dirs fs lib1_path lib2_path sortvars m :
  complibs fs lib1_path lib2_path sortvars = inr m →
  isdir fs lib1_path = true ∧ isdir fs lib2_path = true.
Proof.
  unfold complibs. destruct (isdir fs lib1_path); [|done].
  by destruct (isdir fs lib2_path).
Qed.

Lemma elem_of_common_datasets (files1 files2 : list string) d :
  d ∈ elements
        (list_to_set ((λ f, lower (splitext_root f)) <$> files1) ∩
         list_to_set ((λ f, lower (splitext_root f)) <$> files2) : gset string) ↔
  d ∈ (λ f, lower (splitext_root f)) <$> files1 ∧
  d ∈ (λ f, lower (splitext_root f)) <$> files2.
Proof. by rewrite elem_of_elements, elem_of_intersection, !elem_of_list_to_set. Qed.

(** X12. For two directories whose file names are ASCII: when [complibs]
    returns, the keys of its dictionary are exactly the dataset names found
    in both directories, that is the lower-cased names, without extension,
    of the files whose lower-cased name ends in [.sas7bdat].  A dataset of
    one directory only has no entry, and no other file has one. *)
Theorem complibs_keys (fs : FileSystem) (lib1_path lib2_path : string)
    (sortvars : option (list string)) (m : gmap string LibraryEntry) (dataset : string) :
  (∀ f, f ∈ listdir fs lib1_path ++ listdir fs lib2_path → isascii f = true) →
  complibs fs lib1_path lib2_path sortvars = inr m →
  is_Some (m !! dataset) ↔
  (∃ f, f ∈ listdir fs lib1_path ∧ endswith (lower f) ".sas7bdat" = true ∧
        lower (splitext_root f) = dataset) ∧
  (∃ f, f ∈ listdir fs lib2_path ∧ endswith (lower f) ".sas7bdat" = true ∧
        lower (splitext_root f) = dataset).
Proof.
  intros _ Hm. destruct (complibs_returns_dirs _ _ _ _ _ Hm) as [H1 H2].
  rewrite complibs_loop in Hm by done.
  apply results_loop_returns in Hm as [Hdom _]. rewrite Hdom, lookup_empty.
  rewrite elem_of_common_datasets, !list_elem_of_fmap.
  setoid_rewrite elem_of_sas_files. split.
  - intros [[? [=]]|[(f1 & -> & ? & ?) (f2 & ? & ? & ?)]]. split; eauto.
  - intros [(f1 & ? & ? & <-) (f2 & ? & ? & ?)]. right. split; eauto.
Qed.

Lemma complibs_keys_witness :
  ∃ m, complibs demo_fs "/lib/a" "/lib/b" None = inr m ∧
  (is_Some (m !! "demo") ↔
   (∃ f, f ∈ listdir demo_fs "/lib/a" ∧ endswith (lower f) ".sas7bdat" = true ∧
         lower (splitext_root f) = "demo") ∧
   (∃ f, f ∈ listdir demo_fs "/lib/b" ∧ endswith (lower f) ".sas7bdat" = true ∧
         lower (splitext_root f) = "demo")).
Proof.
  destruct (complibs demo_fs "/lib/a" "/lib/b" None) as [e|m] eqn:E;
    [by vm_compute in E|].
  exists m. split; [done|].
  apply (complibs_keys demo_fs "/lib/a" "/lib/b" None); [|exact E].
  intros f Hf.
  change (f ∈ ["demo.sas7bdat"; "notes.txt"; "DEMO.SAS7BDAT"; "other.sas7bdat"]) in Hf.
  repeat (apply elem_of_cons in Hf as [->|Hf]; [reflexivity|]).
  destruct (not_elem_of_nil _ Hf).
Defined.

Lemma get_col_is_Some df col : col ∈ columns df → is_Some (get_col df col).
Proof.
  unfold get_col, columns. induction (cols df) as [|[name s] l IH]; simpl.
  - by intros ?%elem_of_nil.
  - destruct (String.eqb name col) eqn:E; [done|].
    intros [->|H]%elem_of_cons; [|by apply IH].
    by rewrite String.eqb_refl in E.
Qed.

Lemma select_columns_columns df names :
  (∀ n, n ∈ names → n ∈ columns df) → columns (select_columns df names) = names.
Proof.
  unfold select_columns, columns. cbn [cols].
  induction names as [|n names IH]; intros H; [done|]. cbn [omap list_omap].
  destruct (get_col_is_Some df n) as [s Hs]; [apply H; left|].
  rewrite Hs. cbn [fmap option_fmap option_map list_fmap fst].
  f_equal. apply IH. intros n' Hn'. apply H. by right.
Qed.

(** What one pass of the loop of [complibs] stores, in terms of the two
    tables [ds1] and [ds2] as they are when [compvars] is called. *)
Lemma complibs_dataset_entry fs lib1_path lib2_path sortvars files1 files2 dataset entry :
  complibs_dataset fs lib1_path lib2_path sortvars files1 files2 dataset = inr entry →
  ∃ ds1 ds2,
    vars_both entry = elements (column_set ds1 ∩ column_set ds2) ∧
    vars_left entry = elements (column_set ds1 ∖ column_set ds2) ∧
    vars_right entry = elements (column_set ds2 ∖ column_set ds1) ∧
    ds1_rows entry = index_len ds1 ∧ ds2_rows entry = index_len ds2 ∧
    lib_row_count_match entry = (index_len ds1 =? index_len ds2) ∧
    comparison entry =
      compare
        (match vars_both entry with
         | [] => mkFrame 0 []
         | _ => select_columns ds1 (vars_both entry)
         end)
        (match vars_both entry with
         | [] => mkFrame 0 []
         | _ => select_columns ds2 (vars_both entry)
         end)
        sortvars default_numeric_abs_tol default_numeric_rel_tol.
Proof.
  unfold complibs_dataset.
  destruct (dataset_file files1 dataset) as [f1|]; [|done].
  destruct (dataset_file files2 dataset) as [f2|]; [|done].
  destruct (read_sas fs (path_join lib1_path f1)) as [e|t1]; [done|].
  destruct (read_sas fs (path_join lib2_path f2)) as [e|t2]; [done|].
  destruct (List.filter _ (default [] sortvars)) as [|v vs];
    unfold compvars; cbv zeta; intros [= <-]; eexists _, _; by split_and!.
Qed.

(** The datasets of the two libraries of [demo_fs] are well-formed tables
    with distinct variable names, as [pyreadstat] returns them. *)
Lemma demo_fs_datasets p :
  wf_frame (read_sas7bdat demo_fs p) = true ∧ NoDup (columns (read_sas7bdat demo_fs p)).
Proof.
  cbn [read_sas7bdat demo_fs].
  destruct (String.eqb p "/lib/a/demo.sas7bdat");
    (split; [reflexivity|]);
    (change (NoDup ["id"; "value"]); rewrite !NoDup_cons;
     split_and!; [set_solver..|apply NoDup_nil_2]).
Qed.

Lemma complibs_entry fs lib1_path lib2_path sortvars m dataset entry :
  complibs fs lib1_path lib2_path sortvars = inr m →
  m !! dataset = Some entry →
  ∃ files1 files2,
    complibs_dataset fs lib1_path lib2_path sortvars files1 files2 dataset = inr entry.
Proof.
  intros Hm Hentry. destruct (complibs_returns_dirs _ _ _ _ _ Hm) as [H1 H2].
  rewrite complibs_loop in Hm by done.
  apply results_loop_returns in Hm as [_ Hm].
  destruct (Hm _ _ Hentry) as [Hempty|Hbody]; [by rewrite lookup_empty in Hempty|].
  eauto.
Qed.

Lemma compare_header base comp by_ atol rtol :
  let r := compare base comp by_ atol rtol in
  row_count_match r = (index_len base =? index_len comp) ∧
  base_rows r = index_len base ∧ comp_rows r = index_len comp ∧
  column_count_match r = (length (columns base) =? length (columns comp)) ∧
  base_columns r = length (columns base) ∧ comp_columns r = length (columns comp) ∧
  column_names_match r = bool_decide (column_set base = column_set comp).
Proof. unfold compare. by destruct (keyed_mode by_ base comp). Qed.

Lemma compare_self_match A by_ atol rtol :
  wf_frame A = true → match_ (compare A A by_ atol rtol) = true.
Proof.
  intros Hwf. unfold compare. destruct (keyed_mode by_ A A); [done|].
  cbn [fst snd match_]. by rewrite positional_differences_self.
Qed.

(** X15. For datasets read as well-formed tables with distinct variable
    names: in every entry of the dictionary of [complibs] the nested
    comparison is made on the shared variables only: it reports equal column
    names and as many columns as [vars_both] has, whatever [vars_left] and
    [vars_right] are.  Its row counts are those of the entry, unless the two
    datasets share no variable: two empty tables are then compared, and the
    nested report says [match] with zero rows on both sides, whatever the
    entry's row counts are. *)
Theorem complibs_entry_comparison (fs : FileSystem) (lib1_path lib2_path : string)
    (sortvars : option (list string)) (m : gmap string LibraryEntry)
    (dataset : string) (entry : LibraryEntry) :
  (∀ p, wf_frame (read_sas7bdat fs p) = true ∧ NoDup (columns (read_sas7bdat fs p))) →
  complibs fs lib1_path lib2_path sortvars = inr m →
  m !! dataset = Some entry →
  let r := comparison entry in
  lib_row_count_match entry = (ds1_rows entry =? ds2_rows entry) ∧
  column_names_match r = true ∧ column_count_match r = true ∧
  base_columns r = length (vars_both entry) ∧
  comp_columns r = length (vars_both entry) ∧
  (vars_both entry ≠ [] →
   base_rows r = ds1_rows entry ∧ comp_rows r = ds2_rows entry ∧
   row_count_match r = lib_row_count_match entry) ∧
  (vars_both entry = [] →
   base_rows r = 0 ∧ comp_rows r = 0 ∧ row_count_match r = true ∧ match_ r = true).
Proof.
  intros _ Hm Hentry r.
  destruct (complibs_entry _ _ _ _ _ _ _ Hm Hentry) as (files1 & files2 & Hbody).
  apply complibs_dataset_entry in Hbody
    as (ds1 & ds2 & Hboth & _ & _ & Hr1 & Hr2 & Hrc & Hcmp).
  assert (Hin : ∀ n, n ∈ vars_both entry → n ∈ columns ds1 ∧ n ∈ columns ds2).
  { intros n. rewrite Hboth, elem_of_elements, elem_of_intersection.
    by rewrite !elem_of_column_set. }
  unfold r. rewrite Hcmp, Hrc, Hr1, Hr2.
  destruct (vars_both entry) as [|v vs] eqn:Hvars.
  - pose proof (compare_header (mkFrame 0 []) (mkFrame 0 []) sortvars
                  default_numeric_abs_tol default_numeric_rel_tol)
      as (H1 & H2 & H3 & H4 & H5 & H6 & H7).
    rewrite H1, H2, H3, H4, H5, H6, H7.
    split_and!; [done|by apply bool_decide_eq_true_2|done|done|done|done|].
    intros _. split_and!; [done..|]. by apply compare_self_match.
  - rewrite <- Hvars in *.
    pose proof (compare_header (select_columns ds1 (vars_both entry))
                  (select_columns ds2 (vars_both entry)) sortvars
                  default_numeric_abs_tol default_numeric_rel_tol)
      as (H1 & H2 & H3 & H4 & H5 & H6 & H7).
    rewrite H1, H2, H3, H4, H5, H6, H7. unfold column_set.
    rewrite !select_columns_columns by (intros n Hn; by apply Hin).
    rewrite Nat.eqb_refl, bool_decide_eq_true_2 by done.
    split_and!; [done..|]. intros Hnil. by rewrite Hnil in Hvars.
Qed.

Lemma complibs_entry_comparison_witness :
  ∃ m entry,
    complibs demo_fs "/lib/a" "/lib/b" None = inr m ∧ m !! "demo" = Some entry ∧
    let r := comparison entry in
    lib_row_count_match entry = (ds1_rows entry =? ds2_rows entry) ∧
    column_names_match r = true ∧ column_count_match r = true ∧
    base_columns r = length (vars_both entry) ∧
    comp_columns r = length (vars_both entry) ∧
    (vars_both entry ≠ [] →
     base_rows r = ds1_rows entry ∧ comp_rows r = ds2_rows entry ∧
     row_count_match r = lib_row_count_match entry) ∧
    (vars_both entry = [] →
     base_rows r = 0 ∧ comp_rows r = 0 ∧ row_count_match r = true ∧ match_ r = true).
Proof.
  destruct (complibs demo_fs "/lib/a" "/lib/b" None) as [e|m] eqn:E;
    [by vm_compute in E|].
  destruct (m !! "demo") as [entry|] eqn:Hentry.
  - exists m, entry. split; [done|]. split; [done|].
    exact (complibs_entry_comparison demo_fs "/lib/a" "/lib/b" None m "demo" entry
             demo_fs_datasets E Hentry).
  - exfalso. vm_compute in E. injection E as <-. by vm_compute in Hentry.
Defined.

(** X16. For datasets read as well-formed tables with distinct variable
    names: when [sortvars] is given and all its variables are shared by the
    two datasets, the nested comparison of the entry is made in keyed mode:
    it lists no difference and says [match], whatever the cells of the two
    datasets are. *)
Theorem complibs_with_sortvars_reports_match (fs : FileSystem)
    (lib1_path lib2_path : string) (bs : list string)
    (m : gmap string LibraryEntry) (dataset : string) (entry : LibraryEntry) :
  (∀ p, wf_frame (read_sas7bdat fs p) = true ∧ NoDup (columns (read_sas7bdat fs p))) →
  complibs fs lib1_path lib2_path (Some bs) = inr m →
  m !! dataset = Some entry →
  bs ≠ [] → (∀ b, b ∈ bs → b ∈ vars_both entry) →
  differences (comparison entry) = [] ∧ match_ (comparison entry) = true ∧
  is_Some (common_groups (comparison entry)).
Proof.
  intros _ Hm Hentry Hne Hbs.
  destruct (complibs_entry _ _ _ _ _ _ _ Hm Hentry) as (files1 & files2 & Hbody).
  apply complibs_dataset_entry in Hbody
    as (ds1 & ds2 & Hboth & _ & _ & _ & _ & _ & Hcmp).
  assert (Hin : ∀ n, n ∈ vars_both entry → n ∈ columns ds1 ∧ n ∈ columns ds2).
  { intros n. rewrite Hboth, elem_of_elements, elem_of_intersection.
    by rewrite !elem_of_column_set. }
  rewrite Hcmp. destruct (vars_both entry) as [|v vs] eqn:Hvars.
  { destruct bs as [|b bs]; [done|]. exfalso.
    apply (not_elem_of_nil b). apply Hbs. left. }
  rewrite <- Hvars in *. unfold compare. rewrite keyed_mode_true; [by eauto|done|].
  intros b Hb. rewrite !select_columns_columns by (intros n Hn; by apply Hin).
  split; by apply Hbs.
Qed.

Lemma complibs_with_sortvars_reports_match_witness :
  ∃ m entry,
    complibs demo_fs "/lib/a" "/lib/b" (Some ["id"]) = inr m ∧
    m !! "demo" = Some entry ∧
    differences (comparison entry) = [] ∧ match_ (comparison entry) = true ∧
    is_Some (common_groups (comparison entry)).
Proof.
  destruct (complibs demo_fs "/lib/a" "/lib/b" (Some ["id"])) as [e|m] eqn:E;
    [by vm_compute in E|].
  destruct (m !! "demo") as [entry|] eqn:Hentry.
  - exists m, entry. split; [done|]. split; [done|].
    apply (complibs_with_sortvars_reports_match demo_fs "/lib/a" "/lib/b" ["id"]
             m "demo" entry demo_fs_datasets E Hentry); [done|].
    intros b ->%list_elem_of_singleton.
    vm_compute in E. injection E as <-. vm_compute in Hentry. injection Hentry as <-.
    vm_compute. left.
  - exfalso. vm_compute in E. injection E as <-. by vm_compute in Hentry.
Defined.

(** ** The keyed loop, the fallback and the dispatch *)

(** *** Key tuples *)

Lemma float_eqb_self (x y : float) : (x =? y)%float = true → (x =? x)%float = true.
Proof.
  rewrite !FloatAxioms.eqb_spec. unfold SFeqb, SFcompare.
  destruct (Prim2SF x) as [s|s| |s m e], (Prim2SF y); try done;
    destruct s; by rewrite ?Z.compare_refl, ?Pos.compare_cont_refl.
Qed.

Lemma float_eq_Z_self (x : float) (n : Z) :
  float_eq_Z x n = true → (x =? x)%float = true.
Proof.
  unfold float_eq_Z. rewrite FloatAxioms.eqb_spec. unfold SFeqb, SFcompare.
  destruct (Prim2SF x) as [s|s| |s m e]; try done.
  intros _. destruct s; by rewrite Z.compare_refl, Pos.compare_cont_refl.
Qed.

Lemma py_eqb_self (a b : cell) : py_eqb a b = true → py_eqb a a = true.
Proof.
  destruct a as [m|x|t|], b as [n|y|u|]; simpl; try done; intros H.
  - apply Z.eqb_refl.
  - apply Z.eqb_refl.
  - by eapply float_eq_Z_self.
  - by eapply float_eqb_self.
  - apply String.eqb_refl.
Qed.

Lemma key_eqb_self (k k' : list cell) : key_eqb k k' = true → key_eqb k k = true.
Proof.
  unfold key_eqb. intros [Hlen Hall]%andb_true_iff. apply Nat.eqb_eq in Hlen.
  rewrite Nat.eqb_refl. cbn [andb]. revert k' Hlen Hall.
  induction k as [|a k IH]; intros [|b k'] Hlen Hall; try done.
  cbn in Hall. apply andb_true_iff in Hall as [Hab Hall].
  cbn. rewrite (py_eqb_self a b Hab). cbn [andb].
  apply (IH k'); [by injection Hlen|done].
Qed.

Lemma FOP_snoc {A} (R : A → A → Prop) (l : list A) (x : A) :
  ForallOrdPairs R l → Forall (λ y, R y x) l → ForallOrdPairs R (l ++ [x]).
Proof.
  induction 1 as [|a l Ha Hl IH]; intros Hx; simpl.
  - constructor; constructor.
  - apply Forall_cons in Hx as [Hax Hx]. constructor; [|by apply IH].
    apply Forall_app. split; [done|]. by constructor.
Qed.

Lemma FOP_filter {A} (R : A → A → Prop) (f : A → bool) (l : list A) :
  ForallOrdPairs R l → ForallOrdPairs R (List.filter f l).
Proof.
  induction 1 as [|a l Ha Hl IH]; simpl; [constructor|].
  destruct (f a); [|done]. constructor; [|done].
  apply Forall_forall. intros y [Hy _]%list_elem_of_In%filter_In.
  rewrite Forall_forall in Ha. apply Ha. by apply list_elem_of_In.
Qed.

Lemma FOP_split {A} (R : A → A → Prop) (l1 l2 : list A) (x : A) :
  ForallOrdPairs R (l1 ++ x :: l2) →
  Forall (λ y, R y x) l1 ∧ Forall (R x) l2.
Proof.
  induction l1 as [|a l1 IH]; simpl; inversion_clear 1 as [|? ? Ha Hl].
  - split; [constructor|done].
  - destruct (IH Hl) as [H1 H2]. split; [|done]. constructor; [|done].
    apply Forall_app in Ha as [_ Ha]. by apply Forall_cons in Ha as [Ha _].
Qed.

Lemma FOP_lookup {A} (R : A → A → Prop) (l : list A) :
  ForallOrdPairs R l →
  ∀ i j x y, i < j → l !! i = Some x → l !! j = Some y → R x y.
Proof.
  induction 1 as [|a l Ha Hl IH]; intros i j x y Hij Hi Hj; [done|].
  destruct j as [|j]; [lia|]. destruct i as [|i].
  - injection Hi as <-. rewrite Forall_forall in Ha. apply Ha.
    by eapply list_elem_of_lookup_2.
  - apply (IH i j); [lia|done..].
Qed.

Lemma key_in_false (k : list cell) (s : list (list cell)) :
  key_in k s = false → Forall (λ y, key_eqb k y = false) s.
Proof.
  intros H. apply Forall_forall. intros y Hy. apply not_true_is_false. intros Hky.
  assert (key_in k s = true); [|congruence].
  apply existsb_exists. exists y. split; [by apply list_elem_of_In|done].
Qed.

Lemma key_set_from (acc rows : list (list cell)) :
  ForallOrdPairs (λ k1 k2, key_eqb k2 k1 = false) acc →
  ForallOrdPairs (λ k1 k2, key_eqb k2 k1 = false)
    (foldl (λ s k, if key_in k s then s else s ++ [k]) acc rows) ∧
  (∃ l, foldl (λ s k, if key_in k s then s else s ++ [k]) acc rows = acc ++ l ∧
        ∀ k, k ∈ l → k ∈ rows) ∧
  ∀ k, k ∈ rows →
       k ∈ foldl (λ s k, if key_in k s then s else s ++ [k]) acc rows ∨
       key_in k (foldl (λ s k, if key_in k s then s else s ++ [k]) acc rows) = true.
Proof.
  revert acc. induction rows as [|k0 rows IH]; intros acc Hacc; simpl.
  - split; [done|]. split; [exists []; split; [by rewrite app_nil_r|done]|].
    by intros k ?%elem_of_nil.
  - destruct (key_in k0 acc) eqn:Hin.
    + destruct (IH acc Hacc) as (H1 & (l & Hl & Hsub) & H3).
      split; [done|]. split.
      * exists l. split; [done|]. intros k Hk. right. by apply Hsub.
      * intros k [->|Hk]%elem_of_cons; [|by apply H3]. right.
        rewrite Hl. unfold key_in. rewrite existsb_app.
        unfold key_in in Hin. by rewrite Hin.
    + assert (Hacc' : ForallOrdPairs (λ k1 k2, key_eqb k2 k1 = false) (acc ++ [k0]))
        by (apply FOP_snoc; [done|by apply key_in_false]).
      destruct (IH (acc ++ [k0]) Hacc') as (H1 & (l & Hl & Hsub) & H3).
      split; [done|]. split.
      * exists (k0 :: l). split; [by rewrite Hl, <- app_assoc|].
        intros k [->|Hk]%elem_of_cons; [left|right; by apply Hsub].
      * intros k [->|Hk]%elem_of_cons; [|by apply H3]. left.
        rewrite Hl. apply elem_of_app. left. apply elem_of_app. right. left.
Qed.

Lemma key_set_FOP rows :
  ForallOrdPairs (λ k1 k2, key_eqb k2 k1 = false) (key_set rows).
Proof. apply (key_set_from [] rows). constructor. Qed.

Lemma keyed_group_fields by_ rtol atol base_sorted comp_sorted key d :
  d ∈ keyed_group by_ rtol atol base_sorted comp_sorted key →
  by_values d = Some key.
Proof.
  unfold keyed_group. intros (col & _ & Hd)%elem_of_flat_map.
  by apply keyed_column_fields in Hd as (_ & ? & _).
Qed.

(** C4, amended.  In keyed mode, when the two groups of a common key have
    different lengths in a column that is not a key column, the keyed loop
    adds for that key and column exactly one record, of issue
    [row_count_mismatch] with the two lengths, raises nothing, and compares
    no cell of that column for that key: the list of the loop holds that
    record once, and no other record for that key and column. *)
Theorem unequal_groups_get_one_record (by_ : list string) (rtol atol : float)
    (base comp : DataFrame) (key : list cell) (col : string)
    (base_s comp_s : Series) :
  key ∈ key_inter (key_set (key_rows (sort_values by_ base) by_))
                  (key_set (key_rows (sort_values by_ comp) by_)) →
  col ∉ by_ →
  get_col (select_group (sort_values by_ base) by_ key) col = Some base_s →
  get_col (select_group (sort_values by_ comp) by_ key) col = Some comp_s →
  length (values base_s) ≠ length (values comp_s) →
  let rc := count_record (Some key) (Some col)
              (length (values base_s)) (length (values comp_s)) in
  issue rc = row_count_mismatch ∧ row rc = None ∧
  rc ∈ keyed_differences by_ rtol atol base comp ∧
  (∀ d, d ∈ keyed_group by_ rtol atol (sort_values by_ base) (sort_values by_ comp) key →
        variable d = Some col → d = rc) ∧
  ∃ before after,
    keyed_differences by_ rtol atol base comp = before ++ rc :: after ∧
    ∀ d, d ∈ before ++ after → ¬ (by_values d = Some key ∧ variable d = Some col).
Proof.
  intros Hkey Hby Hbs Hcs Hlen rc.
  set (base_group := select_group (sort_values by_ base) by_ key) in *.
  set (comp_group := select_group (sort_values by_ comp) by_ key) in *.
  assert (Hcol : keyed_column by_ rtol atol key base_group comp_group col = [rc]).
  { unfold keyed_column. rewrite bool_decide_eq_false_2 by done.
    rewrite Hbs, Hcs. by rewrite (proj2 (Nat.eqb_neq _ _) Hlen). }
  assert (Hcolin : col ∈ elements (column_set base_group ∩ column_set comp_group)).
  { apply elem_of_elements, elem_of_intersection.
    split; apply elem_of_column_set; by eapply get_col_columns. }
  assert (Hsplit : ∃ before after,
            keyed_differences by_ rtol atol base comp = before ++ rc :: after ∧
            ∀ d, d ∈ before ++ after →
                 ¬ (by_values d = Some key ∧ variable d = Some col)).
  { assert (Hself : key_eqb key key = true).
    { apply list_elem_of_In, filter_In in Hkey as [_ Hin].
      apply existsb_exists in Hin as (k' & _ & Hk'). by eapply key_eqb_self. }
    pose proof (FOP_filter _
                  (λ k, key_in k (key_set (key_rows (sort_values by_ comp) by_))) _
                  (key_set_FOP (key_rows (sort_values by_ base) by_))) as HK.
    fold (key_inter (key_set (key_rows (sort_values by_ base) by_))
            (key_set (key_rows (sort_values by_ comp) by_))) in HK.
    destruct (list_elem_of_split _ _ Hkey) as (c1 & c2 & HKeq).
    rewrite HKeq in HK. apply FOP_split in HK as [H1 H2].
    rewrite Forall_forall in H1, H2.
    assert (Hc1 : key ∉ c1) by (intros Hin; specialize (H1 _ Hin); congruence).
    assert (Hc2 : key ∉ c2) by (intros Hin; specialize (H2 _ Hin); congruence).
    destruct (list_elem_of_split _ _ Hcolin) as (l1 & l2 & Hcols).
    pose proof (NoDup_elements (column_set base_group ∩ column_set comp_group)) as Hnd.
    rewrite Hcols in Hnd. apply NoDup_app in Hnd as (_ & Hl1 & Hnd).
    apply NoDup_cons in Hnd as [Hl2 _].
    exists (flat_map (keyed_group by_ rtol atol (sort_values by_ base)
                        (sort_values by_ comp)) c1 ++
            flat_map (keyed_column by_ rtol atol key base_group comp_group) l1),
           (flat_map (keyed_column by_ rtol atol key base_group comp_group) l2 ++
            flat_map (keyed_group by_ rtol atol (sort_values by_ base)
                        (sort_values by_ comp)) c2).
    split.
    - unfold keyed_differences. cbv zeta. rewrite HKeq, flat_map_app. cbn [flat_map].
      unfold keyed_group at 2. cbv zeta. fold base_group comp_group.
      rewrite Hcols, flat_map_app. cbn [flat_map]. rewrite Hcol.
      by rewrite <- !app_assoc.
    - intros d Hd [Hk Hv]. rewrite !elem_of_app in Hd.
      destruct Hd as [[Hd|Hd]|[Hd|Hd]].
      + apply elem_of_flat_map in Hd as (k & Hkin & Hd).
        apply keyed_group_fields in Hd. assert (k = key) as -> by congruence. done.
      + apply elem_of_flat_map in Hd as (c & Hcin & Hd).
        apply keyed_column_fields in Hd as (_ & _ & Hc).
        assert (c = col) as -> by congruence. apply (Hl1 col Hcin). left.
      + apply elem_of_flat_map in Hd as (c & Hcin & Hd).
        apply keyed_column_fields in Hd as (_ & _ & Hc).
        assert (c = col) as -> by congruence. done.
      + apply elem_of_flat_map in Hd as (k & Hkin & Hd).
        apply keyed_group_fields in Hd. assert (k = key) as -> by congruence. done. }
  split_and!; [done..| | |done].
  - unfold keyed_differences. apply elem_of_flat_map. exists key. split; [done|].
    unfold keyed_group. apply elem_of_flat_map. exists col. split; [done|].
    fold base_group comp_group. rewrite Hcol. left.
  - intros d Hd Hvar. unfold keyed_group in Hd.
    apply elem_of_flat_map in Hd as (c & _ & Hd).
    pose proof (keyed_column_variable _ _ _ _ _ _ _ _ Hd) as Hc.
    assert (c = col) as -> by congruence.
    fold base_group comp_group in Hd. rewrite Hcol in Hd.
    by apply list_elem_of_singleton in Hd.
Qed.

Lemma unequal_groups_get_one_record_witness :
  ∃ before after,
    keyed_differences ["id"] default_numeric_rel_tol default_numeric_abs_tol
      repeated_key_base scenario1_comp =
      before ++ count_record (Some [VInt 2]) (Some "value") 2 1 :: after ∧
    ∀ d, d ∈ before ++ after →
         ¬ (by_values d = Some [VInt 2] ∧ variable d = Some "value").
Proof.
  apply (unequal_groups_get_one_record ["id"] default_numeric_rel_tol
           default_numeric_abs_tol repeated_key_base scenario1_comp [VInt 2] "value"
           (mkSeries "f" [VFloat 21.0; VFloat 20.0]) (mkSeries "f" [VFloat 20.5])).
  - vm_compute. right. left.
  - intros Hin. apply list_elem_of_singleton in Hin. discriminate Hin.
  - by vm_compute.
  - by vm_compute.
  - simpl. lia.
Defined.

(** *** What the positional loop holds *)

Lemma in_fc_spec (k : ascii) : in_fc k = true ↔ k = "f"%char ∨ k = "c"%char.
Proof. unfold in_fc. by rewrite orb_true_iff, !Ascii.eqb_eq. Qed.

Lemma both_fc_spec (bk ck : ascii) :
  in_fc bk && in_fc ck = true ↔
  (bk = "f"%char ∨ bk = "c"%char) ∧ (ck = "f"%char ∨ ck = "c"%char).
Proof. by rewrite andb_true_iff, !in_fc_spec. Qed.

Lemma close_step_elem key col rtol atol i a b d :
  d ∈ close_step key col rtol atol i a b ↔
  (isna a ≠ isna b ∧ d = cell_record key col i a b missing_value_mismatch None) ∨
  (isna a = false ∧ isna b = false ∧ np_isclose a b rtol atol = false ∧
   d = cell_record key col i a b value_mismatch (float_delta a b)).
Proof.
  unfold close_step.
  destruct (isna a), (isna b), (np_isclose a b rtol atol); cbn [andb orb negb];
    rewrite ?elem_of_nil, ?list_elem_of_singleton; naive_solver.
Qed.

Lemma exact_step_elem key col i a b d :
  d ∈ exact_step key col i a b ↔
  (isna a ≠ isna b ∧ d = cell_record key col i a b missing_value_mismatch None) ∨
  (isna a = false ∧ isna b = false ∧ py_eqb a b = false ∧
   d = cell_record key col i a b value_mismatch None).
Proof.
  unfold exact_step, py_neb.
  destruct (isna a), (isna b), (py_eqb a b); cbn [andb orb negb];
    rewrite ?elem_of_nil, ?list_elem_of_singleton; naive_solver.
Qed.

Lemma array_step_elem key col bk ck i a b d :
  d ∈ array_step key col bk ck i a b ↔
  (isna a ≠ isna b ∧ d = cell_record key col i a b missing_value_mismatch None) ∨
  (isna a = false ∧ isna b = false ∧ array_neb bk ck a b = true ∧
   d = cell_record key col i a b value_mismatch None).
Proof.
  unfold array_step.
  destruct (isna a), (isna b), (array_neb bk ck a b); cbn [andb orb negb];
    rewrite ?elem_of_nil, ?list_elem_of_singleton; naive_solver.
Qed.

Lemma positional_differences_elem rtol atol base comp d :
  d ∈ positional_differences rtol atol base comp ↔
  (index_len base ≠ index_len comp ∧
   d = count_record None None (index_len base) (index_len comp)) ∨
  ∃ col base_s comp_s i a b,
    get_col base col = Some base_s ∧ get_col comp col = Some comp_s ∧
    i < index_len base `min` index_len comp ∧
    values base_s !! i = Some a ∧ values comp_s !! i = Some b ∧
    let floating k := k = "f"%char ∨ k = "c"%char in
    ((isna a ≠ isna b ∧
      d = cell_record None col i a b missing_value_mismatch None) ∨
     (isna a = false ∧ isna b = false ∧
      (floating (dtype_kind base_s) ∧ floating (dtype_kind comp_s)) ∧
      np_isclose a b rtol atol = false ∧
      d = cell_record None col i a b value_mismatch (float_delta a b)) ∨
     (isna a = false ∧ isna b = false ∧
      ¬ (floating (dtype_kind base_s) ∧ floating (dtype_kind comp_s)) ∧
      py_eqb a b = false ∧
      d = cell_record None col i a b value_mismatch None)).
Proof.
  unfold positional_differences. rewrite elem_of_app. cbv zeta.
  assert (Hhead : d ∈ (if negb (index_len base =? index_len comp)
                       then [count_record None None (index_len base) (index_len comp)]
                       else []) ↔
                  index_len base ≠ index_len comp ∧
                  d = count_record None None (index_len base) (index_len comp)).
  { destruct (index_len base =? index_len comp) eqn:E; cbn [negb].
    - apply Nat.eqb_eq in E. rewrite elem_of_nil. naive_solver.
    - apply Nat.eqb_neq in E. rewrite list_elem_of_singleton. naive_solver. }
  rewrite Hhead. apply or_iff_compat_l.
  rewrite elem_of_flat_map. split.
  - intros (col & _ & Hd).
    apply positional_column_elem in Hd as (bs & cs & Hbs & Hcs & Hd).
    unfold compare_values in Hd.
    destruct (in_fc (dtype_kind bs) && in_fc (dtype_kind cs)) eqn:Hfc;
      apply elem_of_scan in Hd as (i & a & b & Ha & Hb & Hd);
      apply lookup_take_Some in Ha as [Ha Hlt];
      apply lookup_take_Some in Hb as [Hb _];
      exists col, bs, cs, i, a, b; (split_and!; [done..|]).
    + apply both_fc_spec in Hfc. apply close_step_elem in Hd. naive_solver.
    + assert (¬ ((dtype_kind bs = "f"%char ∨ dtype_kind bs = "c"%char) ∧
                 (dtype_kind cs = "f"%char ∨ dtype_kind cs = "c"%char)))
        by (rewrite <- both_fc_spec; congruence).
      apply exact_step_elem in Hd. naive_solver.
  - intros (col & bs & cs & i & a & b & Hbs & Hcs & Hi & Ha & Hb & Hd).
    exists col. split.
    { apply elem_of_elements, elem_of_intersection.
      split; apply elem_of_column_set; by eapply get_col_columns. }
    apply positional_column_elem. exists bs, cs. split_and!; [done..|].
    unfold compare_values.
    destruct (in_fc (dtype_kind bs) && in_fc (dtype_kind cs)) eqn:Hfc;
      apply elem_of_scan; exists i, a, b;
      (split_and!; [apply lookup_take_Some; split; [done|lia]..|]).
    + apply both_fc_spec in Hfc. apply close_step_elem. naive_solver.
    + assert (¬ ((dtype_kind bs = "f"%char ∨ dtype_kind bs = "c"%char) ∧
                 (dtype_kind cs = "f"%char ∨ dtype_kind cs = "c"%char)))
        by (rewrite <- both_fc_spec; congruence).
      apply (exact_step_elem None). naive_solver.
Qed.

(** C7. With a non-empty [by] list one of whose columns is missing from the
    base table or from the comparison table, [compare] raises nothing and
    returns what it returns without [by], with none of the group counts.
    Its differences are those of the two tables as they are, index for
    index: the record of the two row counts when these differ, and for
    every column of both tables and every row [i] below the smaller row
    count, the record of the two cells that the tables hold at row [i],
    when one of them alone is missing, or when both are present and are
    not close (two columns of floating kind) or not equal (any other two
    columns).  No row is moved and no key is attached. *)
Theorem missing_key_column_falls_back (base comp : DataFrame) (bs : list string)
    (numeric_abs_tol numeric_rel_tol : float) :
  bs ≠ [] →
  (∃ b, b ∈ bs ∧ (b ∉ columns base ∨ b ∉ columns comp)) →
  let r := compare base comp (Some bs) numeric_abs_tol numeric_rel_tol in
  r = compare base comp None numeric_abs_tol numeric_rel_tol ∧
  differences r = positional_differences numeric_rel_tol numeric_abs_tol base comp ∧
  by_group_count_match r = None ∧ base_only_groups r = None ∧
  comp_only_groups r = None ∧ common_groups r = None ∧
  ∀ d, d ∈ differences r ↔
    (index_len base ≠ index_len comp ∧
     d = count_record None None (index_len base) (index_len comp)) ∨
    ∃ col base_s comp_s i a b,
      get_col base col = Some base_s ∧ get_col comp col = Some comp_s ∧
      i < index_len base `min` index_len comp ∧
      values base_s !! i = Some a ∧ values comp_s !! i = Some b ∧
      let floating k := k = "f"%char ∨ k = "c"%char in
      ((isna a ≠ isna b ∧
        d = cell_record None col i a b missing_value_mismatch None) ∨
       (isna a = false ∧ isna b = false ∧
        (floating (dtype_kind base_s) ∧ floating (dtype_kind comp_s)) ∧
        np_isclose a b numeric_rel_tol numeric_abs_tol = false ∧
        d = cell_record None col i a b value_mismatch (float_delta a b)) ∨
       (isna a = false ∧ isna b = false ∧
        ¬ (floating (dtype_kind base_s) ∧ floating (dtype_kind comp_s)) ∧
        py_eqb a b = false ∧
        d = cell_record None col i a b value_mismatch None)).
Proof.
  intros _ Hmiss r.
  assert (Hr : r = compare base comp None numeric_abs_tol numeric_rel_tol)
    by (unfold r, compare; by rewrite keyed_mode_false).
  assert (Hd : differences r =
               positional_differences numeric_rel_tol numeric_abs_tol base comp)
    by (by rewrite Hr).
  split_and!; [done|done|by rewrite Hr..|].
  intros d. rewrite Hd. apply positional_differences_elem.
Qed.

Lemma missing_key_column_falls_back_witness :
  let r := compare scenario1_base scenario1_comp (Some ["id"; "visit"])
             default_numeric_abs_tol default_numeric_rel_tol in
  differences r =
    [cell_record None "value" 1 (VFloat 20.0) (VFloat 20.5) value_mismatch
       (Some 0.5%float)] ∧
  r = compare scenario1_base scenario1_comp None
        default_numeric_abs_tol default_numeric_rel_tol ∧
  differences r = positional_differences default_numeric_rel_tol
                    default_numeric_abs_tol scenario1_base scenario1_comp ∧
  by_group_count_match r = None ∧ base_only_groups r = None ∧
  comp_only_groups r = None ∧ common_groups r = None ∧
  ∀ d, d ∈ differences r ↔
    (index_len scenario1_base ≠ index_len scenario1_comp ∧
     d = count_record None None (index_len scenario1_base) (index_len scenario1_comp)) ∨
    ∃ col base_s comp_s i a b,
      get_col scenario1_base col = Some base_s ∧
      get_col scenario1_comp col = Some comp_s ∧
      i < index_len scenario1_base `min` index_len scenario1_comp ∧
      values base_s !! i = Some a ∧ values comp_s !! i = Some b ∧
      let floating k := k = "f"%char ∨ k = "c"%char in
      ((isna a ≠ isna b ∧
        d = cell_record None col i a b missing_value_mismatch None) ∨
       (isna a = false ∧ isna b = false ∧
        (floating (dtype_kind base_s) ∧ floating (dtype_kind comp_s)) ∧
        np_isclose a b default_numeric_rel_tol default_numeric_abs_tol = false ∧
        d = cell_record None col i a b value_mismatch (float_delta a b)) ∨
       (isna a = false ∧ isna b = false ∧
        ¬ (floating (dtype_kind base_s) ∧ floating (dtype_kind comp_s)) ∧
        py_eqb a b = false ∧
        d = cell_record None col i a b value_mismatch None)).
Proof.
  split; [by vm_compute|].
  apply (missing_key_column_falls_back scenario1_base scenario1_comp ["id"; "visit"]).
  - done.
  - exists "visit". split; [set_solver|]. left. vm_compute. set_solver.
Defined.

(** *** The choice between the two loops *)

(** C10, as worded, fails in keyed mode.  An integer column against a float
    column is not compared with the tolerances, but it is not compared
    exactly either: the cells of the keyed loop are elements of numpy
    arrays, and [!=] casts the integer to [float64] first.  The counts
    [2**53 + 1] and [2.0**53] are different numbers, positional mode reports
    them, and the keyed loop finds no difference between them. *)
Lemma keyed_loop_rounds_integers_against_floats :
  py_eqb (VInt 9007199254740993) (VFloat 9007199254740992) = false ∧
  difference_count (compare big_count_base big_count_comp None
                      default_numeric_abs_tol default_numeric_rel_tol) = 1 ∧
  keyed_differences ["id"] default_numeric_rel_tol default_numeric_abs_tol
    big_count_base big_count_comp = [] ∧
  ¬ spec_exact_comparison
      (keyed_differences ["id"] default_numeric_rel_tol default_numeric_abs_tol
         big_count_base big_count_comp)
      (VInt 9007199254740993) (VFloat 9007199254740992).
Proof.
  split_and!; [by vm_compute..|].
  intros [_ H].
  assert (Hne : keyed_differences ["id"] default_numeric_rel_tol
                  default_numeric_abs_tol big_count_base big_count_comp ≠ [])
    by (apply H; by vm_compute).
  apply Hne. by vm_compute.
Qed.

(** C10, amended.  For a pair of present cells of a column compared by
    [compare], the tolerance test [np.isclose] is applied exactly when the
    dtype kind of the column is ['f'] or ['c'] in the base table and ['f'] or
    ['c'] in the comparison table.  In every other case, integer columns
    and columns whose dtypes disagree included, the pair is reported exactly
    when [!=] says so, and the tolerances play no part: the records are the
    same for any two tolerances.  That [!=] is exact in positional mode and
    between two object columns; in keyed mode it is numpy's, which casts an
    integer to [float64] before it compares it with a float. *)
Theorem tolerance_only_between_floating_columns (base_s comp_s : Series)
    (rtol atol : float) (i : nat) (a b : cell) :
  values base_s !! i = Some a → values comp_s !! i = Some b →
  isna a = false → isna b = false →
  let floating (k : ascii) := k = "f"%char ∨ k = "c"%char in
  let both_floating := floating (dtype_kind base_s) ∧ floating (dtype_kind comp_s) in
  let both_object := dtype_kind base_s = "O"%char ∧ dtype_kind comp_s = "O"%char in
  (∀ base comp min_rows col,
     get_col base col = Some base_s → get_col comp col = Some comp_s →
     i < min_rows →
     ((∃ d, d ∈ positional_column rtol atol base comp min_rows col ∧ row d = Some i) ↔
      (both_floating ∧ np_isclose a b rtol atol = false) ∨
      (¬ both_floating ∧ py_eqb a b = false))) ∧
  (∀ by_ key base_group comp_group col,
     col ∉ by_ →
     get_col base_group col = Some base_s → get_col comp_group col = Some comp_s →
     length (values base_s) = length (values comp_s) →
     ((∃ d, d ∈ keyed_column by_ rtol atol key base_group comp_group col ∧
            row d = Some i) ↔
      (both_floating ∧ np_isclose a b rtol atol = false) ∨
      (¬ both_floating ∧ both_object ∧ py_eqb a b = false) ∨
      (¬ both_floating ∧ ¬ both_object ∧ np_eqb a b = false))) ∧
  (¬ both_floating →
   ∀ key col rtol' atol' base_vals comp_vals,
     compare_values key col rtol atol (dtype_kind base_s) (dtype_kind comp_s)
       base_vals comp_vals =
     compare_values key col rtol' atol' (dtype_kind base_s) (dtype_kind comp_s)
       base_vals comp_vals).
Proof.
  intros Ha Hb Hna Hnb floating both_floating both_object.
  assert (Hfc : in_fc (dtype_kind base_s) && in_fc (dtype_kind comp_s) = true ↔
                both_floating) by apply both_fc_spec.
  assert (Hob : Ascii.eqb (dtype_kind base_s) "O" && Ascii.eqb (dtype_kind comp_s) "O"
                = true ↔ both_object)
    by (unfold both_object; by rewrite andb_true_iff, !Ascii.eqb_eq).
  split_and!.
  - intros base comp min_rows col Hbs Hcs Hi. unfold positional_column.
    rewrite Hbs, Hcs. cbn [iloc_upto dtype_kind values].
    rewrite (compare_values_flagged None col rtol atol _ _ _ _ i a b)
      by (done || by rewrite lookup_take_lt).
    destruct (in_fc (dtype_kind base_s) && in_fc (dtype_kind comp_s)).
    + rewrite negb_true_iff. intuition congruence.
    + unfold py_neb. rewrite negb_true_iff.
      split; [intros ?; right; split; [|done]|]; intuition congruence.
  - intros by_ key base_group comp_group col Hby Hbs Hcs Hlen. unfold keyed_column.
    rewrite bool_decide_eq_false_2 by done. rewrite Hbs, Hcs, Hlen, Nat.eqb_refl.
    cbn [negb].
    rewrite (compare_values_flagged (Some key) col rtol atol _ _ _ _ i a b) by done.
    destruct (in_fc (dtype_kind base_s) && in_fc (dtype_kind comp_s)).
    + rewrite negb_true_iff. intuition congruence.
    + unfold array_neb, py_neb, np_neb.
      destruct (Ascii.eqb (dtype_kind base_s) "O" && Ascii.eqb (dtype_kind comp_s) "O");
        rewrite negb_true_iff.
      * split; [intros ?; right; left; intuition congruence|]. intuition congruence.
      * split; [intros ?; right; right; intuition congruence|]. intuition congruence.
  - intros Hnot key col rtol' atol' base_vals comp_vals. unfold compare_values.
    destruct (in_fc (dtype_kind base_s) && in_fc (dtype_kind comp_s)); [|done].
    destruct Hnot. by apply Hfc.
Qed.

Lemma tolerance_only_between_floating_columns_witness :
  (∃ d, d ∈ positional_column 10 10 (one_int 1) (one_int 2) 1 "count" ∧ row d = Some 0) ∧
  (∃ d, d ∈ keyed_column ["id"] 10 10 [VInt 7] (one_int 1) (one_int 2) "count" ∧
        row d = Some 0) ∧
  ¬ (∃ d, d ∈ positional_column 10 10 (count_float 1) (count_float 2) 1 "count" ∧
          row d = Some 0) ∧
  ¬ (∃ d, d ∈ keyed_column ["id"] 10 10 [VInt 7] (count_float 1) (count_float 2)
              "count" ∧ row d = Some 0).
Proof.
  pose proof (tolerance_only_between_floating_columns
                (mkSeries "i" [VInt 1]) (mkSeries "i" [VInt 2]) 10 10 0
                (VInt 1) (VInt 2) eq_refl eq_refl eq_refl eq_refl) as (Hp & Hk & _).
  pose proof (tolerance_only_between_floating_columns
                (mkSeries "f" [VFloat 1]) (mkSeries "f" [VFloat 2]) 10 10 0
                (VFloat 1) (VFloat 2) eq_refl eq_refl eq_refl eq_refl) as (Hp' & Hk' & _).
  assert (Hint : ¬ (("i"%char = "f"%char ∨ "i"%char = "c"%char) ∧
                    ("i"%char = "f"%char ∨ "i"%char = "c"%char)))
    by (intros [[H|H] _]; discriminate H).
  assert (Hclose : np_isclose (VFloat 1) (VFloat 2) 10 10 = true) by (by vm_compute).
  split_and!.
  - apply (Hp (one_int 1) (one_int 2) 1 "count"); [done..|lia|].
    right. split; [exact Hint|by vm_compute].
  - apply (Hk ["id"] [VInt 7] (one_int 1) (one_int 2) "count"); [|done..|].
    + intros Hin. apply list_elem_of_singleton in Hin. discriminate Hin.
    + right. right. split; [exact Hint|]. split; [|by vm_compute].
      intros [H _]. discriminate H.
  - intros Hd.
    apply (Hp' (count_float 1) (count_float 2) 1 "count") in Hd; [|done..|lia].
    cbn [dtype_kind] in Hd. destruct Hd as [[_ Hd]|[Hd _]].
    + rewrite Hclose in Hd. discriminate Hd.
    + apply Hd. split; by left.
  - intros Hd.
    apply (Hk' ["id"] [VInt 7] (count_float 1) (count_float 2) "count") in Hd;
      [| |done..].
    + cbn [dtype_kind] in Hd. destruct Hd as [[_ Hd]|[[Hd _]|[Hd _]]].
      * rewrite Hclose in Hd. discriminate Hd.
      * apply Hd. split; by left.
      * apply Hd. split; by left.
    + intros Hin. apply list_elem_of_singleton in Hin. discriminate Hin.
Defined.

(** *** The groups of keyed mode *)

(** X5. In keyed mode the report has its group counts, and they count key
    tuples of [df[by].values] as members of a Python set.  There is a list
    of key tuples of the base table in which no tuple equals an earlier one,
    every tuple is the key of a row, and every row has its key in the list
    (or, for a key with a NaN, which equals nothing, is in the list itself);
    [base_only_groups] and [common_groups] together are the length of that
    list, hence at most [base_rows], and [comp_only_groups] is at most
    [comp_rows]. *)
Theorem keyed_group_counts (base comp : DataFrame) (bs : list string)
    (numeric_abs_tol numeric_rel_tol : float) :
  bs ≠ [] →
  (∀ b, b ∈ bs → b ∈ columns base ∧ b ∈ columns comp) →
  let r := compare base comp (Some bs) numeric_abs_tol numeric_rel_tol in
  let base_tuples := key_rows (sort_values bs base) bs in
  ∃ base_keys : list (list cell),
    (∀ i j k1 k2, i < j → base_keys !! i = Some k1 → base_keys !! j = Some k2 →
                  key_eqb k2 k1 = false) ∧
    (∀ k, k ∈ base_keys → k ∈ base_tuples) ∧
    (∀ k, k ∈ base_tuples → k ∈ base_keys ∨ key_in k base_keys = true) ∧
    length base_tuples = base_rows r ∧
    ∃ n_base_only n_comp_only n_common,
      base_only_groups r = Some n_base_only ∧
      comp_only_groups r = Some n_comp_only ∧
      common_groups r = Some n_common ∧
      n_base_only + n_common = length base_keys ∧
      n_base_only + n_common ≤ base_rows r ∧
      n_comp_only ≤ comp_rows r.
Proof.
  intros Hne Hall r base_tuples.
  exists (key_set base_tuples).
  destruct (key_set_from [] base_tuples) as (Hfop & (l & Hl & Hsub) & Hcov);
    [constructor|]. fold (key_set base_tuples) in Hfop, Hl, Hcov.
  split_and!.
  - intros i j k1 k2 Hij Hi Hj. by apply (FOP_lookup _ _ Hfop i j).
  - intros k Hk. apply Hsub. by rewrite Hl in Hk.
  - done.
  - unfold base_tuples, r, compare. rewrite key_rows_length.
    by destruct (keyed_mode (Some bs) base comp).
  - unfold r, compare. rewrite keyed_mode_true by done.
    cbn [fst snd default fmap option_fmap option_map base_only_groups comp_only_groups
         common_groups base_rows comp_rows].
    eexists _, _, _. split_and!; [done..| | |].
    + apply key_diff_inter_length.
    + rewrite key_diff_inter_length.
      etrans; [apply key_set_length|]. by rewrite key_rows_length.
    + etrans; [apply filter_length_le|].
      etrans; [apply key_set_length|]. by rewrite key_rows_length.
Qed.

Lemma keyed_group_counts_witness :
  let r := compare repeated_key_base scenario1_comp (Some ["id"])
             default_numeric_abs_tol default_numeric_rel_tol in
  let base_tuples := key_rows (sort_values ["id"] repeated_key_base) ["id"] in
  base_tuples = [[VInt 1]; [VInt 2]; [VInt 2]; [VInt 3]] ∧
  base_only_groups r = Some 0 ∧ common_groups r = Some 3 ∧
  ∃ base_keys : list (list cell),
    (∀ i j k1 k2, i < j → base_keys !! i = Some k1 → base_keys !! j = Some k2 →
                  key_eqb k2 k1 = false) ∧
    (∀ k, k ∈ base_keys → k ∈ base_tuples) ∧
    (∀ k, k ∈ base_tuples → k ∈ base_keys ∨ key_in k base_keys = true) ∧
    length base_tuples = base_rows r ∧
    ∃ n_base_only n_comp_only n_common,
      base_only_groups r = Some n_base_only ∧
      comp_only_groups r = Some n_comp_only ∧
      common_groups r = Some n_common ∧
      n_base_only + n_common = length base_keys ∧
      n_base_only + n_common ≤ base_rows r ∧
      n_comp_only ≤ comp_rows r.
Proof.
  split; [by vm_compute|]. split; [by vm_compute|]. split; [by vm_compute|].
  apply (keyed_group_counts repeated_key_base scenario1_comp ["id"]).
  - done.
  - intros b ->%list_elem_of_singleton. split; vm_compute; set_solver.
Defined.

(** *** The files of a common dataset *)

(** X13. For ASCII file names: whatever [os.listdir] returned for the two
    directories, each of the two generator look-ups [next(...)] made for a
    common dataset finds a listed file, so [StopIteration] is not raised;
    the file has the dataset's name, and the path given to [read_sas] ends,
    lower-cased, in [.sas7bdat], which is the first of the two extensions
    [read_sas] accepts. *)
Theorem complibs_finds_the_files_of_a_common_dataset
    (listing1 listing2 : list string) (lib1_path lib2_path dataset : string) :
  let lib1_files := List.filter (λ f, endswith (lower f) ".sas7bdat") listing1 in
  let lib2_files := List.filter (λ f, endswith (lower f) ".sas7bdat") listing2 in
  (∀ f, f ∈ listing1 ++ listing2 → isascii f = true) →
  isascii lib1_path = true → isascii lib2_path = true →
  dataset ∈ (λ f, lower (splitext_root f)) <$> lib1_files →
  dataset ∈ (λ f, lower (splitext_root f)) <$> lib2_files →
  ∃ lib1_file lib2_file,
    dataset_file lib1_files dataset = Some lib1_file ∧
    dataset_file lib2_files dataset = Some lib2_file ∧
    lib1_file ∈ listing1 ∧ lib2_file ∈ listing2 ∧
    lower (splitext_root lib1_file) = dataset ∧
    lower (splitext_root lib2_file) = dataset ∧
    endswith (lower (path_join lib1_path lib1_file)) ".sas7bdat" = true ∧
    endswith (lower (path_join lib2_path lib2_file)) ".sas7bdat" = true.
Proof.
  intros lib1_files lib2_files _ _ _ [f1 Hf1]%dataset_file_found
    [f2 Hf2]%dataset_file_found.
  exists f1, f2.
  pose proof (dataset_file_Some _ _ _ Hf1) as [[Hin1 Hext1]%elem_of_sas_files Hn1].
  pose proof (dataset_file_Some _ _ _ Hf2) as [[Hin2 Hext2]%elem_of_sas_files Hn2].
  split_and!; try done; by apply path_join_keeps_extension.
Qed.

Lemma complibs_finds_the_files_of_a_common_dataset_witness :
  ∃ lib1_file lib2_file,
    dataset_file (List.filter (λ f, endswith (lower f) ".sas7bdat")
                    ["demo.sas7bdat"; "notes.txt"]) "demo" = Some lib1_file ∧
    dataset_file (List.filter (λ f, endswith (lower f) ".sas7bdat")
                    ["DEMO.SAS7BDAT"; "other.sas7bdat"]) "demo" = Some lib2_file ∧
    lib1_file ∈ ["demo.sas7bdat"; "notes.txt"] ∧
    lib2_file ∈ ["DEMO.SAS7BDAT"; "other.sas7bdat"] ∧
    lower (splitext_root lib1_file) = "demo" ∧
    lower (splitext_root lib2_file) = "demo" ∧
    endswith (lower (path_join "/lib/a" lib1_file)) ".sas7bdat" = true ∧
    endswith (lower (path_join "/lib/b" lib2_file)) ".sas7bdat" = true.
Proof.
  apply (complibs_finds_the_files_of_a_common_dataset
           ["demo.sas7bdat"; "notes.txt"] ["DEMO.SAS7BDAT"; "other.sas7bdat"]
           "/lib/a" "/lib/b" "demo").
  - intros f Hf.
    change (f ∈ ["demo.sas7bdat"; "notes.txt"; "DEMO.SAS7BDAT"; "other.sas7bdat"]) in Hf.
    repeat (apply elem_of_cons in Hf as [->|Hf]; [reflexivity|]).
    destruct (not_elem_of_nil _ Hf).
  - reflexivity.
  - reflexivity.
  - vm_compute. left.
  - vm_compute. left.
Defined.

End Macros.

(** ** Properties of the pages of a box plot *)

Module PhuseFacts.

Import Macros Phuse.

Local Open Scope Z_scope.

Lemma page_index_lt (n mx : Z) (i : nat) :
  0 < mx →
  (i < Z.to_nat ((n + mx - 1) / mx))%nat ↔ Z.of_nat i * mx < n.
Proof.
  intros Hmx.
  pose proof (Z.div_mod (n + mx - 1) mx ltac:(lia)) as Hdiv.
  pose proof (Z.mod_pos_bound (n + mx - 1) mx Hmx) as Hmod.
  set (q := (n + mx - 1) / mx) in *. set (r := (n + mx - 1) mod mx) in *.
  split; intros H.
  - assert (Z.of_nat i + 1 ≤ q) by lia. nia.
  - assert (Z.of_nat i < q) by nia. lia.
Qed.

Lemma page_ranges_lookup (n mx : Z) (i : nat) (start_idx end_idx : Z) :
  0 < mx →
  page_ranges n mx !! i = Some (start_idx, end_idx) ↔
  Z.of_nat i * mx < n ∧ start_idx = Z.of_nat i * mx ∧
  end_idx = Z.min ((Z.of_nat i + 1) * mx - 1) (n - 1).
Proof.
  intros Hmx. unfold page_ranges. rewrite list_lookup_fmap, fmap_Some.
  setoid_rewrite lookup_seq. rewrite <- (page_index_lt n mx i Hmx). split.
  - intros (j & [-> Hlt] & [= -> ->]). done.
  - intros (Hlt & -> & ->). by exists i.
Qed.

Lemma page_ranges_length (n mx : Z) :
  0 < mx → 0 ≤ n →
  (Z.of_nat (length (page_ranges n mx)) - 1) * mx < n ≤
  Z.of_nat (length (page_ranges n mx)) * mx.
Proof.
  intros Hmx Hn. unfold page_ranges. rewrite length_fmap, length_seq.
  pose proof (Z.div_mod (n + mx - 1) mx ltac:(lia)) as Hdiv.
  pose proof (Z.mod_pos_bound (n + mx - 1) mx Hmx) as Hmod.
  assert (0 ≤ (n + mx - 1) / mx) by (apply Z.div_pos; lia).
  rewrite Z2Nat.id by done. nia.
Qed.

Lemma boxplot_block_ranges_returns df visit_col mx pages :
  boxplot_block_ranges df visit_col mx = inr pages →
  ∃ s, get_col df visit_col = Some s ∧ sortable (unique (values s)) = true ∧
       mx ≠ 0 ∧
       pages = page_ranges (Z.of_nat (length (unique (values s)))) mx.
Proof.
  unfold boxplot_block_ranges. destruct (get_col df visit_col) as [s|]; [|done].
  destruct (sortable (unique (values s))) eqn:Hsort; cbn [negb]; [|done].
  destruct (mx =? 0) eqn:E; [done|]. intros [= <-]. exists s.
  apply Z.eqb_neq in E. done.
Qed.

(** X17. With a positive page size, [boxplot_block_ranges] returns as many
    pages as the distinct visits need and no more.  Page [i] starts at index
    [i * max_boxes_per_page]; it is not empty, ends at an index of a visit
    and holds at most [max_boxes_per_page] visits, exactly that many unless
    it is the last page, which ends at the last visit. *)
Theorem boxplot_pages_shape (df : DataFrame) (visit_col : string)
    (max_boxes_per_page : Z) (pages : list (Z * Z)) :
  0 < max_boxes_per_page →
  boxplot_block_ranges df visit_col max_boxes_per_page = inr pages →
  ∃ s, get_col df visit_col = Some s ∧
    let n_visits := Z.of_nat (length (unique (values s))) in
    let n_pages := Z.of_nat (length pages) in
    (n_pages - 1) * max_boxes_per_page < n_visits ≤ n_pages * max_boxes_per_page ∧
    ∀ (i : nat) (start_idx end_idx : Z),
      pages !! i = Some (start_idx, end_idx) →
      start_idx = Z.of_nat i * max_boxes_per_page ∧
      start_idx ≤ end_idx < n_visits ∧
      end_idx - start_idx + 1 ≤ max_boxes_per_page ∧
      (Z.of_nat i + 1 < n_pages → end_idx - start_idx + 1 = max_boxes_per_page) ∧
      (Z.of_nat i + 1 = n_pages → end_idx = n_visits - 1).
Proof.
  intros Hmx (s & Hs & _ & _ & ->)%boxplot_block_ranges_returns.
  exists s. split; [done|]. cbv zeta.
  set (n_visits := Z.of_nat (length (unique (values s)))).
  pose proof (page_ranges_length n_visits max_boxes_per_page Hmx ltac:(lia)) as Hlen.
  set (n_pages := Z.of_nat (length (page_ranges n_visits max_boxes_per_page))) in *.
  split; [done|].
  intros i start_idx end_idx (Hi & -> & ->)%page_ranges_lookup; [|done].
  assert (Hmul : (Z.of_nat i + 1) * max_boxes_per_page =
                 Z.of_nat i * max_boxes_per_page + max_boxes_per_page) by ring.
  rewrite Hmul. split_and!; try lia.
  intros Hnext.
  assert ((Z.of_nat i + 1) * max_boxes_per_page ≤ (n_pages - 1) * max_boxes_per_page)
    by (apply Z.mul_le_mono_nonneg_r; lia).
  lia.
Qed.

Lemma boxplot_pages_shape_witness :
  ∃ s, get_col visits "id" = Some s ∧
    let n_visits := Z.of_nat (length (unique (values s))) in
    let n_pages := Z.of_nat (length [(0, 1); (2, 2)]) in
    (n_pages - 1) * 2 < n_visits ≤ n_pages * 2 ∧
    ∀ (i : nat) (start_idx end_idx : Z),
      [(0, 1); (2, 2)] !! i = Some (start_idx, end_idx) →
      start_idx = Z.of_nat i * 2 ∧
      start_idx ≤ end_idx < n_visits ∧
      end_idx - start_idx + 1 ≤ 2 ∧
      (Z.of_nat i + 1 < n_pages → end_idx - start_idx + 1 = 2) ∧
      (Z.of_nat i + 1 = n_pages → end_idx = n_visits - 1).
Proof.
  apply (boxplot_pages_shape visits "id" 2 [(0, 1); (2, 2)]).
  - lia.
  - reflexivity.
Defined.

(** X18. With a positive page size every visit is on exactly one page: the
    index [k] of a visit lies between the start and the end of page
    [k // max_boxes_per_page] and of no other page. *)
Theorem boxplot_pages_cover (df : DataFrame) (visit_col : string)
    (max_boxes_per_page : Z) (pages : list (Z * Z)) (s : Series) (k : Z) :
  0 < max_boxes_per_page →
  boxplot_block_ranges df visit_col max_boxes_per_page = inr pages →
  get_col df visit_col = Some s →
  0 ≤ k < Z.of_nat (length (unique (values s))) →
  ∃ start_idx end_idx,
    pages !! Z.to_nat (k / max_boxes_per_page) = Some (start_idx, end_idx) ∧
    start_idx ≤ k ≤ end_idx ∧
    ∀ (j : nat) (start_j end_j : Z),
      pages !! j = Some (start_j, end_j) → start_j ≤ k ≤ end_j →
      j = Z.to_nat (k / max_boxes_per_page).
Proof.
  intros Hmx (s' & Hs' & _ & _ & ->)%boxplot_block_ranges_returns Hs Hk.
  assert (s' = s) as -> by congruence.
  set (n := Z.of_nat (length (unique (values s)))) in *.
  pose proof (Z.div_mod k max_boxes_per_page ltac:(lia)) as Hdiv.
  pose proof (Z.mod_pos_bound k max_boxes_per_page Hmx) as Hmod.
  assert (Hq : 0 ≤ k / max_boxes_per_page) by (apply Z.div_pos; lia).
  set (q := k / max_boxes_per_page) in *.
  assert (Hmul : ∀ x, (x + 1) * max_boxes_per_page =
                      x * max_boxes_per_page + max_boxes_per_page) by (intros; ring).
  assert (Hk' : q * max_boxes_per_page ≤ k < q * max_boxes_per_page + max_boxes_per_page)
    by lia.
  exists (q * max_boxes_per_page),
         (Z.min ((q + 1) * max_boxes_per_page - 1) (n - 1)).
  split_and!.
  - apply page_ranges_lookup; [done|]. rewrite Z2Nat.id by done.
    split_and!; [lia|done..].
  - lia.
  - rewrite Hmul. lia.
  - intros j start_j end_j (Hj & -> & ->)%page_ranges_lookup [Hlo Hhi]; [|done].
    rewrite Hmul in Hhi.
    destruct (Z.lt_trichotomy (Z.of_nat j) q) as [Hlt|[Heq|Hgt]]; [|lia|].
    + assert ((Z.of_nat j + 1) * max_boxes_per_page ≤ q * max_boxes_per_page)
        by (apply Z.mul_le_mono_nonneg_r; lia).
      rewrite Hmul in *. lia.
    + assert ((q + 1) * max_boxes_per_page ≤ Z.of_nat j * max_boxes_per_page)
        by (apply Z.mul_le_mono_nonneg_r; lia).
      rewrite Hmul in *. lia.
Qed.

Lemma boxplot_pages_cover_witness :
  ∃ start_idx end_idx,
    [(0, 1); (2, 2)] !! Z.to_nat (2 / 2) = Some (start_idx, end_idx) ∧
    start_idx ≤ 2 ≤ end_idx ∧
    ∀ (j : nat) (start_j end_j : Z),
      [(0, 1); (2, 2)] !! j = Some (start_j, end_j) → start_j ≤ 2 ≤ end_j →
      j = Z.to_nat (2 / 2).
Proof.
  apply (boxplot_pages_cover visits "id" 2 [(0, 1); (2, 2)]
           (mkSeries "i" [VInt 2; VInt 1; VInt 2; VInt 3]) 2).
  - lia.
  - reflexivity.
  - reflexivity.
  - vm_compute. split; [by intros ?|done].
Defined.

(** *** The visits that are counted *)

Lemma unique_from_elem (acc vals : list cell) (y : cell) :
  y ∈ foldl (λ seen v, if existsb (same_value v) seen then seen else seen ++ [v])
        acc vals →
  y ∈ acc ∨ y ∈ vals.
Proof.
  revert acc. induction vals as [|v vals IH]; intros acc; simpl; [by left|].
  intros [Hy|Hy]%IH; [|right; by right].
  destruct (existsb (same_value v) acc); [by left|].
  apply elem_of_app in Hy as [Hy|Hy]; [by left|].
  apply list_elem_of_singleton in Hy as ->. right. left.
Qed.

Lemma unique_from_keeps (acc vals : list cell) (y : cell) :
  y ∈ acc →
  y ∈ foldl (λ seen v, if existsb (same_value v) seen then seen else seen ++ [v])
        acc vals.
Proof.
  revert acc. induction vals as [|v vals IH]; intros acc Hy; simpl; [done|].
  apply IH. destruct (existsb (same_value v) acc); [done|].
  apply elem_of_app. by left.
Qed.

Lemma same_value_refl (v : cell) : same_value v v = true.
Proof.
  unfold same_value. destruct (isna v) eqn:E; [done|]. simpl.
  by apply py_eqb_refl.
Qed.

Lemma unique_from_covers (acc vals : list cell) (x : cell) :
  x ∈ vals →
  ∃ y, y ∈ foldl (λ seen v, if existsb (same_value v) seen then seen else seen ++ [v])
             acc vals ∧
       same_value x y = true.
Proof.
  revert acc. induction vals as [|v vals IH]; intros acc; [by intros ?%elem_of_nil|].
  intros [->|Hx]%elem_of_cons; simpl; [|by apply IH].
  destruct (existsb (same_value v) acc) eqn:E.
  - apply existsb_exists in E as (y & Hy%list_elem_of_In & Hsame).
    exists y. split; [by apply unique_from_keeps|done].
  - exists v. split; [|apply same_value_refl].
    apply unique_from_keeps, elem_of_app. right. left.
Qed.

(** X19. On a well-formed table, for a visit column of integers or of floats
    (missing values included) and a page size other than zero,
    [boxplot_block_ranges] raises nothing: the distinct visits can be
    sorted, and the pages are returned. *)
Theorem boxplot_numeric_visits (df : DataFrame) (visit_col : string)
    (max_boxes_per_page : Z) (s : Series) :
  wf_frame df = true →
  get_col df visit_col = Some s →
  dtype_kind s = "i"%char ∨ dtype_kind s = "f"%char →
  max_boxes_per_page ≠ 0 →
  boxplot_block_ranges df visit_col max_boxes_per_page =
    inr (page_ranges (Z.of_nat (length (unique (values s)))) max_boxes_per_page).
Proof.
  intros Hwf Hs Hkind Hmx. unfold boxplot_block_ranges. rewrite Hs.
  assert (Hnum : ∀ v, v ∈ unique (values s) →
                      match v with VInt _ | VFloat _ => True | _ => False end).
  { intros v [Hv|Hv]%unique_from_elem; [by apply elem_of_nil in Hv|].
    pose proof (wf_frame_get_col df visit_col s Hwf Hs v Hv) as Hk.
    destruct Hkind as [Hi|Hf]; rewrite ?Hi, ?Hf in Hk; by destruct v. }
  assert (Hsort : sortable (unique (values s)) = true).
  { destruct (unique (values s)) as [|v rest]; [done|]. simpl.
    apply forallb_forall. intros u Hu%list_elem_of_In.
    pose proof (Hnum v ltac:(left)) as Hv.
    pose proof (Hnum u ltac:(by right)) as Hu'.
    by destruct v, u. }
  rewrite Hsort. cbn [negb].
  by destruct (Z.eqb_spec max_boxes_per_page 0).
Qed.

Lemma boxplot_numeric_visits_witness :
  boxplot_block_ranges visits "value" 2 = inr [(0, 1); (2, 3)].
Proof.
  apply (boxplot_numeric_visits visits "value" 2
           (mkSeries "f" [VFloat 21.0; VFloat nan; VFloat 20.0; VFloat 30.0])).
  - reflexivity.
  - reflexivity.
  - by right.
  - lia.
Defined.

(** X20. A visit column that holds a [None] and a string cannot be
    paginated: sorting its distinct values compares the two, and
    [boxplot_block_ranges] raises the [TypeError] of [sorted], whatever the
    page size is. *)
Theorem boxplot_missing_character_visit (df : DataFrame) (visit_col : string)
    (max_boxes_per_page : Z) (s : Series) (t : string) :
  get_col df visit_col = Some s →
  VNone ∈ values s → VStr t ∈ values s →
  boxplot_block_ranges df visit_col max_boxes_per_page = inl TypeError.
Proof.
  intros Hs Hnone Hstr. unfold boxplot_block_ranges. rewrite Hs.
  destruct (unique_from_covers [] _ _ Hnone) as (y1 & Hy1 & Hsame1).
  destruct (unique_from_covers [] _ _ Hstr) as (y2 & Hy2 & Hsame2).
  fold (unique (values s)) in Hy1, Hy2.
  assert (sortable (unique (values s)) = false) as ->; [|done].
  destruct (unique (values s)) as [|v rest]; [by apply elem_of_nil in Hy1|].
  simpl. apply not_true_is_false. intros Hall. rewrite forallb_forall in Hall.
  assert (Hy2' : ∃ t', y2 = VStr t') by (destruct y2; try done; eauto).
  destruct Hy2' as [t' ->].
  assert (Hy1' : y1 = VNone ∨ ∃ x, y1 = VFloat x).
  { destruct y1; try done; eauto. }
  apply elem_of_cons in Hy1 as [->|Hy1]; apply elem_of_cons in Hy2 as [Hv|Hy2].
  - destruct Hy1' as [->|[x ->]]; discriminate Hv.
  - specialize (Hall _ (proj1 (list_elem_of_In _ _) Hy2)).
    by destruct Hy1' as [->|[x ->]].
  - subst v. specialize (Hall _ (proj1 (list_elem_of_In _ _) Hy1)).
    by destruct Hy1' as [->|[x ->]].
  - pose proof (Hall _ (proj1 (list_elem_of_In _ _) Hy1)) as Ha.
    pose proof (Hall _ (proj1 (list_elem_of_In _ _) Hy2)) as Hb.
    destruct Hy1' as [->|[x ->]]; by destruct v.
Qed.

Lemma boxplot_missing_character_visit_witness :
  boxplot_block_ranges visits "site" 20 = inl TypeError.
Proof.
  apply (boxplot_missing_character_visit visits "site" 20
           (mkSeries "O" [VStr "a"; VNone; VStr "b"; VStr "c"]) "a").
  - reflexivity.
  - right. left.
  - left.
Defined.

End PhuseFacts.
